(** * Macro console: persistence codec, execution engine and store mutations

    A shallow embedding of [main.cpp].  The program keeps a list of macros
    and one configuration record, stores both in line-oriented text files,
    replays a macro through the platform's input-injection calls and edits
    the list from a console menu.

    Conventions of the embedding:
    - a [std::string] is a list of characters ([str]);
    - an [int] is a [Z] in the range of a 32-bit two's-complement integer
      ([in_int]); casts that can leave the range are written out;
    - a stream ([std::istringstream], [std::ifstream], [std::cin]) is the
      text that is still unread, as the stream delivers it (line ends are
      single line feeds); an extraction either yields a value and the rest
      of the text or fails;
    - everything outside the process (the two files, the console, the
      injection and wait calls) lives in a [World] record that is passed
      through the functions by a small state monad. *)

From Stdlib Require Import ZArith List Ascii String Bool Lia.
Import ListNotations.
Open Scope Z_scope.

(* ===================================================================== *)
(** ** Characters and strings *)
(* ===================================================================== *)

Definition str := list ascii.

(** A string literal of the source. *)
Definition lit (s : string) : str := list_ascii_of_string s.

(** The line terminator the streams see. *)
Definition nl : ascii := ascii_of_nat 10.

Definition chr (c : ascii) : nat := nat_of_ascii c.

(** [std::isspace] in the "C" locale: space, and the control characters
    from horizontal tab (9) to carriage return (13). *)
Definition isspace (c : ascii) : bool :=
  (chr c =? 32)%nat || ((9 <=? chr c)%nat && (chr c <=? 13)%nat).

Definition isdigit (c : ascii) : bool :=
  (48 <=? chr c)%nat && (chr c <=? 57)%nat.

Definition is_nl (c : ascii) : bool := Ascii.eqb c nl.

(** [operator==] on strings. *)
Fixpoint streq (s t : str) : bool :=
  match s, t with
  | [], [] => true
  | c :: s', d :: t' => Ascii.eqb c d && streq s' t'
  | _, _ => false
  end.

(** Leading whitespace is skipped by every formatted extraction. *)
Fixpoint skipws (s : str) : str :=
  match s with
  | c :: r => if isspace c then skipws r else s
  | [] => []
  end.

(** The characters up to the next whitespace, and what follows them. *)
Fixpoint span_word (s : str) : str * str :=
  match s with
  | c :: r => if isspace c then ([], s)
              else let '(w, t) := span_word r in (c :: w, t)
  | [] => ([], [])
  end.

(** One call of [std::getline(stream, line)]: fails when nothing is left,
    otherwise takes the characters up to the next line terminator (which is
    consumed and not stored) or up to the end of the text. *)
Fixpoint read_line (s : str) : str * str :=
  match s with
  | c :: r => if is_nl c then ([], r)
              else let '(l, t) := read_line r in (c :: l, t)
  | [] => ([], [])
  end.

Definition getline (s : str) : option (str * str) :=
  match s with
  | [] => None
  | _ => Some (read_line s)
  end.

(** The lines that [while (std::getline(in, line))] visits, in order. *)
Fixpoint getlines (s : str) : list str :=
  match s with
  | [] => []
  | c :: r =>
      if is_nl c then [] :: getlines r
      else match getlines r with
           | [] => [[c]]
           | l :: ls => (c :: l) :: ls
           end
  end.

(** Lines written with [<< "\n"] after each of them. *)
Definition unlines (ls : list str) : str :=
  flat_map (fun l => l ++ [nl]) ls.

Definition no_nl (s : str) : Prop := Forall (fun c => is_nl c = false) s.

(* ===================================================================== *)
(** ** Integers *)
(* ===================================================================== *)

Definition INT_MIN : Z := - 2 ^ 31.
Definition INT_MAX : Z := 2 ^ 31 - 1.

Definition in_int (v : Z) : Prop := INT_MIN <= v <= INT_MAX.
Definition in_intb (v : Z) : bool := (INT_MIN <=? v) && (v <=? INT_MAX).

(** [static_cast<int>] of a value that may be out of range. *)
Definition wrap_int (v : Z) : Z := (v + 2 ^ 31) mod 2 ^ 32 - 2 ^ 31.

(** [static_cast<WORD>]: the low 16 bits. *)
Definition to_WORD (v : Z) : Z := v mod 2 ^ 16.


(** *** Formatted output of integers

    [out << n] writes the decimal digits of [n], most significant first,
    after a minus sign when [n] is negative.  Twenty digits are enough for
    every 64-bit value. *)

Definition digit_char (d : Z) : ascii := ascii_of_nat (48 + Z.to_nat d).

Fixpoint put_digits (fuel : nat) (n : Z) (acc : str) : str :=
  match fuel with
  | O => acc
  | S f =>
      let acc' := digit_char (n mod 10) :: acc in
      if n / 10 =? 0 then acc' else put_digits f (n / 10) acc'
  end.

Definition put_unsigned (n : Z) : str := put_digits 20 n [].

Definition put_int (v : Z) : str :=
  if v <? 0 then "-"%char :: put_unsigned (- v) else put_unsigned v.

(** *** Formatted input of integers

    Both [operator>>(int&)] and [std::stoi] skip leading whitespace, accept
    one optional sign, then take decimal digits as long as there are any.
    Text after the last digit is left alone.  No digit at all is a failed
    conversion; a value outside [int] is a range error. *)

Definition digit_val (c : ascii) : Z := Z.of_nat (chr c) - 48.

Fixpoint get_digits (acc : Z) (s : str) : Z * str :=
  match s with
  | c :: r => if isdigit c then get_digits (acc * 10 + digit_val c) r
              else (acc, s)
  | [] => (acc, [])
  end.

Inductive scan_result : Type :=
| NoConversion
| OutOfRange
| Converted (v : Z) (rest : str).

Definition scan_sign (s : str) : bool * str :=
  match s with
  | c :: r => if Ascii.eqb c "-" then (true, r)
              else if Ascii.eqb c "+" then (false, r)
              else (false, s)
  | [] => (false, [])
  end.

Definition scan_int (s : str) : scan_result :=
  let '(neg, s1) := scan_sign (skipws s) in
  match s1 with
  | c :: _ =>
      if isdigit c then
        let '(m, rest) := get_digits 0 s1 in
        let v := if neg then - m else m in
        if in_intb v then Converted v rest else OutOfRange
      else NoConversion
  | [] => NoConversion
  end.

(** [std::stoi] reports both failures by throwing. *)
Inductive exception : Type := invalid_argument | out_of_range.

Inductive outcome (A : Type) : Type :=
| Returned (v : A)
| Thrown (e : exception).
Arguments Returned {A} v.
Arguments Thrown {A} e.

Definition stoi (s : str) : outcome Z :=
  match scan_int s with
  | Converted v _ => Returned v
  | NoConversion => Thrown invalid_argument
  | OutOfRange => Thrown out_of_range
  end.

(** *** Extraction from a string stream

    [iss >> x] on the unread text: [None] is the stream's fail state, in
    which every later extraction of the chain fails too. *)

Definition extract (A : Type) : Type := str -> option (A * str).

Definition ex_ret {A} (x : A) : extract A := fun s => Some (x, s).

Definition ex_bind {A B} (m : extract A) (k : A -> extract B) : extract B :=
  fun s => match m s with
           | Some (x, s') => k x s'
           | None => None
           end.

Declare Scope extract_scope.
Delimit Scope extract_scope with extract.
Notation "x <- m >> k" := (ex_bind m (fun x => k))
  (at level 61, m at next level, right associativity) : extract_scope.

Definition get_word : extract str :=
  fun s => match span_word (skipws s) with
           | ([], _) => None
           | (w, r) => Some (w, r)
           end.

Definition get_int : extract Z :=
  fun s => match scan_int s with
           | Converted v r => Some (v, r)
           | _ => None
           end.

(* ===================================================================== *)
(** ** Data model *)
(* ===================================================================== *)

Inductive ActionType : Type := Move | Click | Key | Delay.

(** [struct Action]: what the two integers mean depends on [type].  [Move]
    uses both, the other kinds use [a] only and are built with [b = 0]. *)
Record Action : Type := mkAction { type : ActionType; a : Z; b : Z }.

Record Macro : Type := mkMacro { name : str; actions : list Action }.

Record AppConfig : Type := mkConfig { default_delay_ms : Z }.

(** A value-initialised [Macro{}] and the default [AppConfig]. *)
Definition empty_macro : Macro := mkMacro [] [].
Definition default_config : AppConfig := mkConfig 50.

(** [macro.actions.push_back(act)]. *)
Definition push_action (m : Macro) (act : Action) : Macro :=
  mkMacro (name m) (actions m ++ [act]).

(* ===================================================================== *)
(** ** The world outside the process *)
(* ===================================================================== *)

(** A file of the working directory: [content] is what an input stream
    reads ([None] when the file cannot be opened), [writable] tells whether
    an output stream can be opened on it. *)
Record File : Type := mkFile { content : option str; writable : bool }.

Inductive MouseFlags : Type :=
| MOUSEEVENTF_MOVE
| MOUSEEVENTF_LEFTDOWN
| MOUSEEVENTF_LEFTUP
| MOUSEEVENTF_RIGHTDOWN
| MOUSEEVENTF_RIGHTUP.

(** [KEY_DOWN] is the zero-initialised [dwFlags] of a key press. *)
Inductive KeyFlags : Type := KEY_DOWN | KEYEVENTF_KEYUP.

Inductive INPUT : Type :=
| INPUT_MOUSE (dx dy : Z) (dwFlags : MouseFlags)
| INPUT_KEYBOARD (wVk : Z) (dwFlags : KeyFlags).

(** The platform calls the program makes, with the arguments it passes.
    [Sleep] is recorded with the [int] of the call; the platform reads it
    as a [DWORD] ([to_DWORD]), the same number unless it is negative. *)
Inductive Call : Type :=
| SendInput (inputs : list INPUT)
| Sleep (ms : Z).

Record World : Type := mkWorld {
  config_txt : File;
  macros_txt : File;
  cin : str;
  cout : str;
  cerr : str;
  calls : list Call
}.

Definition IO (A : Type) : Type := World -> A * World.

Definition ret {A} (x : A) : IO A := fun w => (x, w).

Definition bind {A B} (m : IO A) (k : A -> IO B) : IO B :=
  fun w => let '(x, w') := m w in k x w'.

Declare Scope io_scope.
Delimit Scope io_scope with io.
Notation "x <- m ;; k" := (bind m (fun x => k))
  (at level 61, m at next level, right associativity) : io_scope.
Notation "m ;; k" := (bind m (fun _ => k))
  (at level 61, right associativity) : io_scope.
Open Scope io_scope.

Definition print (s : str) : IO unit :=
  fun w => (tt, mkWorld (config_txt w) (macros_txt w) (cin w)
                        (cout w ++ s) (cerr w) (calls w)).

Definition eprint (s : str) : IO unit :=
  fun w => (tt, mkWorld (config_txt w) (macros_txt w) (cin w)
                        (cout w) (cerr w ++ s) (calls w)).

Definition set_cin (s : str) (w : World) : World :=
  mkWorld (config_txt w) (macros_txt w) s (cout w) (cerr w) (calls w).

(** [std::getline(std::cin, line)]. *)
Definition cin_getline : IO (option str) :=
  fun w => match getline (cin w) with
           | Some (l, r) => (Some l, set_cin r w)
           | None => (None, w)
           end.

Definition call (c : Call) : IO unit :=
  fun w => (tt, mkWorld (config_txt w) (macros_txt w) (cin w)
                        (cout w) (cerr w) (calls w ++ [c])).

Definition write_config_txt (text : str) : IO unit :=
  fun w => (tt, mkWorld (mkFile (Some text) (writable (config_txt w)))
                        (macros_txt w) (cin w) (cout w) (cerr w) (calls w)).

Definition write_macros_txt (text : str) : IO unit :=
  fun w => (tt, mkWorld (config_txt w)
                        (mkFile (Some text) (writable (macros_txt w)))
                        (cin w) (cout w) (cerr w) (calls w)).

(** A range-based [for] whose body only acts on the world. *)
Fixpoint for_each {A} (body : A -> IO unit) (l : list A) : IO unit :=
  match l with
  | [] => ret tt
  | x :: r => body x ;; for_each body r
  end.

(* ===================================================================== *)
(** ** Persistence: the configuration file *)
(* ===================================================================== *)

(** [line.find('=')]. *)
Fixpoint find_eq (s : str) : option nat :=
  match s with
  | [] => None
  | c :: r => if Ascii.eqb c "=" then Some O
              else option_map S (find_eq r)
  end.

(** The body of the [while] loop of [LoadConfig]; the [match] on the
    outcome of [stoi] is the [try] block with its handler, which takes
    every [std::exception]. *)
Definition LoadConfig_line (config : AppConfig) (line : str) : AppConfig :=
  match find_eq line with
  | None => config
  | Some pos =>
      let key := firstn pos line in
      let value := skipn (S pos) line in
      if streq key (lit "default_delay_ms") then
        match stoi value with
        | Returned v => mkConfig v
        | Thrown _ => mkConfig 50
        end
      else config
  end.

Definition LoadConfig (w : World) : AppConfig :=
  match content (config_txt w) with
  | None => default_config
  | Some text => fold_left LoadConfig_line (getlines text) default_config
  end.

Definition SaveConfig_text (config : AppConfig) : str :=
  lit "default_delay_ms=" ++ put_int (default_delay_ms config) ++ [nl].

Definition SaveConfig (config : AppConfig) : IO unit :=
  fun w =>
    if writable (config_txt w) then write_config_txt (SaveConfig_text config) w
    else eprint (lit "Failed to write config file." ++ [nl]) w.

(* ===================================================================== *)
(** ** Persistence: the macro file *)
(* ===================================================================== *)

(** The locals of [LoadMacros] that live across the loop. *)
Record LoadState : Type := mkLoad {
  st_macros : list Macro;
  st_current : Macro;
  st_in_macro : bool
}.

Definition load_init : LoadState := mkLoad [] empty_macro false.

(** [iss >> token] on a fresh stream over the line.  When there is no
    word, [token] stays empty and no branch reads the stream again. *)
Definition first_token (line : str) : str * str :=
  match get_word line with
  | Some (t, r) => (t, r)
  | None => ([], line)
  end.

(** The name after the [macro] token: the rest of the line, without one
    leading space.  [std::getline] leaves [current.name] as it is when
    nothing follows the token. *)
Definition header_name (old : str) (iss : str) : str :=
  let n := match getline iss with
           | Some (l, _) => l
           | None => old
           end in
  match n with
  | c :: r => if Ascii.eqb c " " then r else n
  | [] => n
  end.

(** The step branches: the action a step line adds, if any. *)
Definition parse_step (token : str) : extract Action :=
  (if streq token (lit "move") then
     dx <- get_int >> dy <- get_int >> ex_ret (mkAction Move dx dy)
   else if streq token (lit "click") then
     button <- get_word >>
     ex_ret (mkAction Click (if streq button (lit "right") then 1 else 0) 0)
   else if streq token (lit "key") then
     vk <- get_int >> ex_ret (mkAction Key vk 0)
   else if streq token (lit "delay") then
     ms <- get_int >> ex_ret (mkAction Delay ms 0)
   else fun _ => None)%extract.

Definition step_action (token iss : str) : option Action :=
  option_map fst (parse_step token iss).

(** The body of the [while] loop of [LoadMacros]. *)
Definition LoadMacros_line (st : LoadState) (line : str) : LoadState :=
  match line with
  | [] => st
  | _ =>
    let '(token, iss) := first_token line in
    if streq token (lit "macro") then
      let st1 := if st_in_macro st
                 then mkLoad (st_macros st ++ [st_current st]) empty_macro true
                 else mkLoad (st_macros st) (st_current st) true in
      mkLoad (st_macros st1)
             (mkMacro (header_name (name (st_current st1)) iss)
                      (actions (st_current st1)))
             true
    else if streq token (lit "end") then
      if st_in_macro st
      then mkLoad (st_macros st ++ [st_current st]) empty_macro false
      else st
    else if st_in_macro st then
      match step_action token iss with
      | Some act => mkLoad (st_macros st) (push_action (st_current st) act) true
      | None => st
      end
    else st
  end.

(** After the loop: an open block is still pushed. *)
Definition LoadMacros_finish (st : LoadState) : list Macro :=
  if st_in_macro st then st_macros st ++ [st_current st] else st_macros st.

Definition LoadMacros_lines (lines : list str) : list Macro :=
  LoadMacros_finish (fold_left LoadMacros_line lines load_init).

Definition LoadMacros (w : World) : list Macro :=
  match content (macros_txt w) with
  | None => []
  | Some text => LoadMacros_lines (getlines text)
  end.

(** The line (with its terminator) written for one action. *)
Definition SaveMacros_action (act : Action) : str :=
  match type act with
  | Move => lit "move " ++ put_int (a act) ++ lit " " ++ put_int (b act) ++ [nl]
  | Click => lit "click " ++ (if a act =? 1 then lit "right" else lit "left")
                          ++ [nl]
  | Key => lit "key " ++ put_int (a act) ++ [nl]
  | Delay => lit "delay " ++ put_int (a act) ++ [nl]
  end.

Definition SaveMacros_macro (m : Macro) : str :=
  lit "macro " ++ name m ++ [nl]
  ++ flat_map SaveMacros_action (actions m)
  ++ lit "end" ++ [nl].

Definition SaveMacros_text (macros : list Macro) : str :=
  flat_map SaveMacros_macro macros.

Definition SaveMacros (macros : list Macro) : IO unit :=
  fun w =>
    if writable (macros_txt w) then write_macros_txt (SaveMacros_text macros) w
    else eprint (lit "Failed to write macros file." ++ [nl]) w.

(* ===================================================================== *)
(** ** Console helpers *)
(* ===================================================================== *)

Definition ListMacros_entry (i : nat) (m : Macro) : str :=
  put_unsigned (Z.of_nat (i + 1)) ++ lit ") " ++ name m ++ lit " ("
  ++ put_unsigned (Z.of_nat (List.length (actions m))) ++ lit " steps)" ++ [nl].

Fixpoint ListMacros_from (i : nat) (macros : list Macro) : IO unit :=
  match macros with
  | [] => ret tt
  | m :: r => print (ListMacros_entry i m) ;; ListMacros_from (S i) r
  end.

Definition ListMacros (macros : list Macro) : IO unit :=
  match macros with
  | [] => print (lit "No macros available." ++ [nl])
  | _ => ListMacros_from 0 macros
  end.

(** [ReadIndex]: the answer as an [int], or [-1] when there is no line
    or [stoi] throws. *)
Definition ReadIndex (prompt : str) : IO Z :=
  print prompt ;;
  input <- cin_getline ;;
  match input with
  | None => ret (-1)
  | Some line => match stoi line with
                 | Returned v => ret v
                 | Thrown _ => ret (-1)
                 end
  end.

(** [ReadLine]: the answer, or the empty string when there is no line. *)
Definition ReadLine (prompt : str) : IO str :=
  print prompt ;;
  input <- cin_getline ;;
  match input with
  | None => ret []
  | Some line => ret line
  end.

(* ===================================================================== *)
(** ** Execution engine *)
(* ===================================================================== *)

Definition SendMouseMove (dx dy : Z) : IO unit :=
  call (SendInput [INPUT_MOUSE dx dy MOUSEEVENTF_MOVE]).

Definition SendMouseClick (right : bool) : IO unit :=
  if right
  then call (SendInput [INPUT_MOUSE 0 0 MOUSEEVENTF_RIGHTDOWN;
                        INPUT_MOUSE 0 0 MOUSEEVENTF_RIGHTUP])
  else call (SendInput [INPUT_MOUSE 0 0 MOUSEEVENTF_LEFTDOWN;
                        INPUT_MOUSE 0 0 MOUSEEVENTF_LEFTUP]).

Definition SendKey (vk : Z) : IO unit :=
  call (SendInput [INPUT_KEYBOARD (to_WORD vk) KEY_DOWN;
                   INPUT_KEYBOARD (to_WORD vk) KEYEVENTF_KEYUP]).

(** The [switch] of [RunMacro]. *)
Definition RunMacro_action (config : AppConfig) (act : Action) : IO unit :=
  match type act with
  | Move => SendMouseMove (a act) (b act) ;;
            call (Sleep (default_delay_ms config))
  | Click => SendMouseClick (a act =? 1) ;;
             call (Sleep (default_delay_ms config))
  | Key => SendKey (a act) ;;
           call (Sleep (default_delay_ms config))
  | Delay => call (Sleep (a act))
  end.

Definition RunMacro (macro : Macro) (config : AppConfig) : IO unit :=
  print (lit "Running macro: " ++ name macro ++ [nl]) ;;
  for_each (RunMacro_action config) (actions macro) ;;
  print (lit "Done." ++ [nl]).

(* ===================================================================== *)
(** ** Store mutations *)
(* ===================================================================== *)

Inductive flow : Type := Break | Continue.

(** One pass through the body of the [while (true)] of [CreateMacro]. *)
Definition CreateMacro_step (macro : Macro) : IO (flow * Macro) :=
  print (lit "Add step (move/click/key/delay/done): ") ;;
  input <- cin_getline ;;
  match input with
  | None => ret (Break, macro)
  | Some step =>
    if streq step (lit "done") then ret (Break, macro)
    else if streq step (lit "move") then
      dx <- ReadIndex (lit "dx: ") ;;
      dy <- ReadIndex (lit "dy: ") ;;
      if (dx =? -1) || (dy =? -1) then
        print (lit "Invalid numbers." ++ [nl]) ;; ret (Continue, macro)
      else ret (Continue, push_action macro (mkAction Move dx dy))
    else if streq step (lit "click") then
      button <- ReadLine (lit "left/right: ") ;;
      ret (Continue,
           push_action macro
             (mkAction Click (if streq button (lit "right") then 1 else 0) 0))
    else if streq step (lit "key") then
      vk <- ReadIndex (lit "Virtual-Key code (e.g. 0x41 for A): ") ;;
      if vk =? -1 then
        print (lit "Invalid key code." ++ [nl]) ;; ret (Continue, macro)
      else ret (Continue, push_action macro (mkAction Key vk 0))
    else if streq step (lit "delay") then
      ms <- ReadIndex (lit "Delay ms: ") ;;
      if ms =? -1 then
        print (lit "Invalid delay." ++ [nl]) ;; ret (Continue, macro)
      else ret (Continue, push_action macro (mkAction Delay ms 0))
    else print (lit "Unknown step." ++ [nl]) ;; ret (Continue, macro)
  end.

(** The loop, with a bound on the number of passes; [None] when the bound
    is reached before the loop is left. *)
Fixpoint CreateMacro_loop (fuel : nat) (macro : Macro) (w : World)
  : option (Macro * World) :=
  match fuel with
  | O => None
  | S f =>
      match CreateMacro_step macro w with
      | ((Break, m), w') => Some (m, w')
      | ((Continue, m), w') => CreateMacro_loop f m w'
      end
  end.

(** [n] passes that all stay in the loop. *)
Fixpoint CreateMacro_passes (n : nat) (macro : Macro) (w : World)
  : option (Macro * World) :=
  match n with
  | O => Some (macro, w)
  | S k =>
      match CreateMacro_step macro w with
      | ((Continue, m), w') => CreateMacro_passes k m w'
      | ((Break, _), _) => None
      end
  end.

(** Every pass that stays in the loop reads at least one character, so one
    pass more than there are unread characters is always enough. *)
Definition CreateMacro (macros : list Macro) : IO (list Macro) :=
  fun w0 =>
    let '(n, w) := ReadLine (lit "Macro name: ") w0 in
    match n with
    | [] => (print (lit "Name cannot be empty." ++ [nl]) ;; ret macros) w
    | _ =>
        match CreateMacro_loop (S (List.length (cin w))) (mkMacro n []) w with
        | Some (macro, w') =>
            (print (lit "Macro added." ++ [nl]) ;; ret (macros ++ [macro])) w'
        | None => (macros, w)
        end
    end.

(** [macros.erase(macros.begin() + k)]. *)
Definition erase {A} (k : nat) (l : list A) : list A :=
  firstn k l ++ skipn (S k) l.

(** [static_cast<int>(macros.size())]. *)
Definition size_as_int {A} (l : list A) : Z :=
  wrap_int (Z.of_nat (List.length l)).

(** Menu entry 4. *)
Definition main_delete (macros : list Macro) : IO (list Macro) :=
  ListMacros macros ;;
  index <- ReadIndex (lit "Macro number to delete: ") ;;
  if (index <? 1) || (index >? size_as_int macros) then
    print (lit "Invalid macro number." ++ [nl]) ;; ret macros
  else
    print (lit "Macro removed." ++ [nl]) ;;
    ret (erase (Z.to_nat (index - 1)) macros).

(** Menu entry 5. *)
Definition main_set_delay (config : AppConfig) : IO AppConfig :=
  delay <- ReadIndex (lit "Default delay (ms): ") ;;
  if delay <? 0 then
    print (lit "Invalid delay." ++ [nl]) ;; ret config
  else
    print (lit "Default delay set." ++ [nl]) ;; ret (mkConfig delay).

(** Menu entry 2. *)
Definition main_run (config : AppConfig) (macros : list Macro) : IO unit :=
  match macros with
  | [] => print (lit "No macros to run." ++ [nl])
  | _ =>
      ListMacros macros ;;
      index <- ReadIndex (lit "Macro number: ") ;;
      if (index <? 1) || (index >? size_as_int macros) then
        print (lit "Invalid macro number." ++ [nl])
      else
        match nth_error macros (Z.to_nat (index - 1)) with
        | Some m => RunMacro m config
        | None => ret tt
        end
  end.

Definition PrintMenu : IO unit :=
  print ([nl] ++ lit "=== Macro Console (Driver-Free) ===" ++ [nl]) ;;
  print (lit "1) List macros" ++ [nl]) ;;
  print (lit "2) Run macro" ++ [nl]) ;;
  print (lit "3) Create macro" ++ [nl]) ;;
  print (lit "4) Delete macro" ++ [nl]) ;;
  print (lit "5) Set default delay" ++ [nl]) ;;
  print (lit "6) Save" ++ [nl]) ;;
  print (lit "7) Load" ++ [nl]) ;;
  print (lit "0) Quit" ++ [nl]).

(** One pass through the menu loop of [main] on the two process-lifetime
    variables. *)
Definition main_pass (config : AppConfig) (macros : list Macro)
  : IO (flow * (AppConfig * list Macro)) :=
  PrintMenu ;;
  choice <- ReadIndex (lit "Select option: ") ;;
  if choice =? 0 then ret (Break, (config, macros))
  else if choice =? 1 then
    ListMacros macros ;; ret (Continue, (config, macros))
  else if choice =? 2 then
    main_run config macros ;; ret (Continue, (config, macros))
  else if choice =? 3 then
    macros' <- CreateMacro macros ;; ret (Continue, (config, macros'))
  else if choice =? 4 then
    macros' <- main_delete macros ;; ret (Continue, (config, macros'))
  else if choice =? 5 then
    config' <- main_set_delay config ;; ret (Continue, (config', macros))
  else if choice =? 6 then
    SaveConfig config ;; SaveMacros macros ;;
    print (lit "Saved." ++ [nl]) ;; ret (Continue, (config, macros))
  else if choice =? 7 then
    fun w => (print (lit "Loaded." ++ [nl]) ;;
              ret (Continue, (LoadConfig w, LoadMacros w))) w
  else
    print (lit "Unknown option." ++ [nl]) ;; ret (Continue, (config, macros)).

(** The menu loop.  It has no bound of its own (at the end of the input
    every pass reads -1 and goes on), so the model counts passes. *)
Fixpoint main_loop (fuel : nat) (config : AppConfig) (macros : list Macro)
  (w : World) : option (AppConfig * list Macro * World) :=
  match fuel with
  | O => None
  | S f =>
      match main_pass config macros w with
      | ((Break, (c, ms)), w') => Some (c, ms, w')
      | ((Continue, (c, ms)), w') => main_loop f c ms w'
      end
  end.

Definition main (fuel : nat) (w : World) : option World :=
  let config := LoadConfig w in
  let macros := LoadMacros w in
  let '(_, w1) :=
    (print (lit "Driver-free macro console ready (Win11)." ++ [nl]) ;;
     print (lit "Press Enter to open the menu." ++ [nl]) ;;
     cin_getline) w in
  match main_loop fuel config macros w1 with
  | None => None
  | Some (c, ms, w2) =>
      Some (snd ((SaveConfig c ;;
                  SaveMacros ms ;;
                  print (lit "Goodbye!" ++ [nl]) ;;
                  print (lit "Press Enter to exit." ++ [nl]) ;;
                  cin_getline) w2))
  end.

(* ===================================================================== *)
(** ** Vocabulary of the statements *)
(* ===================================================================== *)

(** The text does not go on with a digit. *)
Definition no_digit_head (s : str) : Prop :=
  match s with
  | c :: _ => isdigit c = false
  | [] => True
  end.

(** The characters of a written [int]: digits and a minus sign. *)
Definition numeral_char (c : ascii) : Prop :=
  isdigit c = true \/ c = "-"%char.

(** The line of an action, without its terminator. *)
Definition action_line (act : Action) : str :=
  match type act with
  | Move => lit "move " ++ put_int (a act) ++ lit " " ++ put_int (b act)
  | Click => lit "click " ++ (if a act =? 1 then lit "right" else lit "left")
  | Key => lit "key " ++ put_int (a act)
  | Delay => lit "delay " ++ put_int (a act)
  end.

Definition macro_lines (m : Macro) : list str :=
  (lit "macro " ++ name m) :: map action_line (actions m) ++ [lit "end"].

(** The actions the program itself builds: both fields are [int]s, a
    [Click] carries the code 0 (left) or 1 (right), and only [Move] uses
    the second field. *)
Definition wf_action (act : Action) : Prop :=
  in_int (a act) /\ in_int (b act) /\
  match type act with
  | Move => True
  | Click => (a act = 0 \/ a act = 1) /\ b act = 0
  | Key | Delay => b act = 0
  end.

Definition wf_macro (m : Macro) : Prop :=
  name m <> [] /\ no_nl (name m) /\ Forall wf_action (actions m).

(** The button code of a [Click] is 0 or 1. *)
Definition button_ok (act : Action) : Prop :=
  type act = Click -> a act = 0 \/ a act = 1.

Definition store_ok (macros : list Macro) : Prop :=
  Forall (fun m => Forall button_ok (actions m)) macros.

(** The first word of a line, and what a line adds to an open block. *)
Definition token_of (line : str) : str := fst (first_token line).

Definition line_action (line : str) : option Action :=
  step_action (fst (first_token line)) (snd (first_token line)).

Definition is_header (line : str) : Prop :=
  streq (token_of line) (lit "macro") = true.

Definition is_step_line (line : str) : Prop :=
  streq (token_of line) (lit "macro") = false /\
  streq (token_of line) (lit "end") = false.

Fixpoint body_actions (lines : list str) : list Action :=
  match lines with
  | [] => []
  | l :: r => match line_action l with
              | Some act => act :: body_actions r
              | None => body_actions r
              end
  end.

Definition header_macro (hdr : str) (body : list str) : Macro :=
  mkMacro (header_name [] (snd (first_token hdr))) (body_actions body).

(** Outside a block, [current] is a fresh [Macro{}]. *)
Definition load_inv (st : LoadState) : Prop :=
  st_in_macro st = false -> st_current st = empty_macro.

(** The same run with [ms] already decoded in front. *)
Definition shift (ms : list Macro) (st : LoadState) : LoadState :=
  mkLoad (ms ++ st_macros st) (st_current st) (st_in_macro st).

(** The two integers of a [move] line cannot be extracted. *)
Definition move_args_fail (args : str) : Prop :=
  match get_int args with
  | None => True
  | Some (_, r) => get_int r = None
  end.

(** The whitespace-separated words of a line, and whether a word is a
    decimal numeral (an optional sign, then digits only); these two follow
    the wording of the specification and are used to state where it and the
    program differ. *)
Fixpoint spec_words_aux (fuel : nat) (s : str) : list str :=
  match fuel with
  | O => []
  | S f => match span_word (skipws s) with
           | ([], _) => []
           | (w, r) => w :: spec_words_aux f r
           end
  end.

Definition spec_words (s : str) : list str :=
  spec_words_aux (S (List.length s)) s.

Definition spec_numeric_token (w : str) : bool :=
  match snd (scan_sign w) with
  | [] => false
  | ds => forallb isdigit ds
  end.

(** A world whose macro file holds [text]. *)
Definition with_macros_txt (text : str) (w : World) : World :=
  mkWorld (config_txt w) (mkFile (Some text) (writable (macros_txt w)))
          (cin w) (cout w) (cerr w) (calls w).

Definition with_config_txt (text : str) (w : World) : World :=
  mkWorld (mkFile (Some text) (writable (config_txt w))) (macros_txt w)
          (cin w) (cout w) (cerr w) (calls w).

(** A world with nothing on disk, nothing typed and nothing printed. *)
Definition blank_world : World :=
  mkWorld (mkFile None true) (mkFile None true) [] [] [] [].

(** The calls the replay of one action is specified to make. *)
Definition replay_calls (config : AppConfig) (act : Action) : list Call :=
  match type act with
  | Move => [SendInput [INPUT_MOUSE (a act) (b act) MOUSEEVENTF_MOVE];
             Sleep (default_delay_ms config)]
  | Click => [SendInput (if a act =? 1
                         then [INPUT_MOUSE 0 0 MOUSEEVENTF_RIGHTDOWN;
                               INPUT_MOUSE 0 0 MOUSEEVENTF_RIGHTUP]
                         else [INPUT_MOUSE 0 0 MOUSEEVENTF_LEFTDOWN;
                               INPUT_MOUSE 0 0 MOUSEEVENTF_LEFTUP]);
              Sleep (default_delay_ms config)]
  | Key => [SendInput [INPUT_KEYBOARD (to_WORD (a act)) KEY_DOWN;
                       INPUT_KEYBOARD (to_WORD (a act)) KEYEVENTF_KEYUP];
            Sleep (default_delay_ms config)]
  | Delay => [Sleep (a act)]
  end.

(** A store whose only macro has a line break inside its name. *)
Definition newline_named : list Macro :=
  [mkMacro (lit "A" ++ [nl] ++ lit "B") []].

(** A macro file with a [move] line that ends in the word [2x]. *)
Definition trailing_text_file : str :=
  unlines [lit "macro m"; lit "move 1 2x"; lit "end"].

(** A console action that never gives characters back to [std::cin]. *)
Definition reads_forward {A} (m : IO A) : Prop :=
  forall w, (List.length (cin (snd (m w))) <= List.length (cin w))%nat.

(** A configuration file that sets a negative delay. *)
Definition negative_delay_file : str := lit "default_delay_ms=-5" ++ [nl].

(** Concrete inputs for the worked instances at the end of the file. *)
Definition sample_store : list Macro :=
  [mkMacro (lit "Greet") [mkAction Key 72 0; mkAction Key 73 0];
   mkMacro (lit "mix it")
     [mkAction Move (-3) 40; mkAction Click 1 0; mkAction Click 0 0;
      mkAction Delay 200 0]].

Definition abc_store : list Macro :=
  [mkMacro (lit "A") []; mkMacro (lit "B") []; mkMacro (lit "C") []].

Definition bad_move_file : str :=
  unlines [lit "macro M"; lit "key 1"; lit "move 10 abc"; lit "delay 5";
           lit "end"].

Definition bad_value_file : str :=
  unlines [lit "default_delay_ms=12"; lit "default_delay_ms=abc"].

Definition unclosed_file : str :=
  unlines [lit "macro A"; lit "key 1"; lit "end"; lit "macro B";
           lit "move 1 2"] ++ lit "key 9".

Definition reopened_file : str :=
  unlines [lit "macro A"; lit "key 1"; lit "macro B"; lit "key 2";
           lit "end"].

Definition clicks_file : str :=
  unlines [lit "macro M"; lit "click foo"; lit "click right"; lit "end"].

(** A world in which the user has typed [lines]. *)
Definition typed (lines : list str) : World :=
  set_cin (unlines lines) blank_world.

(** *** Vocabulary of the further properties *)

(** The line sets the delay: it has an [=] and the text before the first
    one is the key. *)
Definition assigns_delay (line : str) : bool :=
  match find_eq line with
  | Some pos => streq (firstn pos line) (lit "default_delay_ms")
  | None => false
  end.

(** A store that the macro file can hold: no name spans two lines and
    every action is as the program builds it. *)
Definition saveable (macros : list Macro) : Prop :=
  Forall (fun m => no_nl (name m) /\ Forall wf_action (actions m)) macros.

Definition is_headerb (line : str) : bool :=
  streq (token_of line) (lit "macro").

(** The names the header lines of a file give, in order. *)
Definition header_names (lines : list str) : list str :=
  map (fun l => header_name [] (snd (first_token l)))
      (filter is_headerb lines).

(** An action whose numbers differ from the -1 that [ReadIndex] returns
    for an answer it cannot read. *)
Definition not_minus_one (act : Action) : Prop :=
  match type act with
  | Move => a act <> -1 /\ b act <> -1
  | Click => True
  | Key | Delay => a act <> -1
  end.






(** The lines so far end outside a block: there are none, or the last one
    is an [end] line. *)
Definition at_block_end (pre : list str) : Prop :=
  pre = [] \/
  exists pre0 e, pre = pre0 ++ [e] /\ streq (token_of e) (lit "end") = true.

(** [l'] is [l] behind some whitespace. *)
Definition indented (l l' : str) : Prop :=
  exists ws, Forall (fun c => isspace c = true) ws /\ l' = ws ++ l.

(** Concrete inputs for the worked instances of the further properties. *)
Definition two_assignments_file : str :=
  unlines [lit "default_delay_ms=10"; lit "x=1"; lit "default_delay_ms=25";
           lit "other"].

Definition no_assignment_file : str :=
  unlines [lit "delay=10"; lit "# default_delay_ms"].

Definition messy_file : str :=
  unlines [lit "key 3"; lit "macro  A b"; lit "move 1 2x"; lit "click up";
           lit "macro"; lit "delay +7"; lit "end"; lit "end"].

Definition stray_lines_file : str :=
  unlines [lit "macro A"; lit "end"; lit "key 1"; lit "end"; lit "macro B"].

Definition no_stray_lines_file : str :=
  unlines [lit "macro A"; lit "end"; lit "macro B"].

Definition plain_file : str :=
  unlines [lit "macro A"; lit "key 1"; lit "end"].

Definition indented_file : str :=
  unlines [lit "  macro A"; lit "    key 1"; lit "end"].

Definition read_only_world : World :=
  mkWorld (mkFile None false) (mkFile None false) (unlines [lit "6"])
          [] [] [].

(** *** Vocabulary of the revised statements *)

(** A macro file whose block holds well-formed steps, a line that is no
    step at all and a [move] line whose first number runs into a letter. *)
Definition mixed_block_file : str :=
  unlines [lit "macro M"; lit "key 1 junk"; lit "bogus"; lit "move 1x 2";
           lit "  delay +5"; lit "end"; lit "macro N"].

(** A store with one macro more than an [int] can count. *)
Definition huge_store : list Macro :=
  repeat empty_macro (Z.to_nat (2 ^ 31)).

(** A word: some characters, none of them whitespace. *)
Definition is_word (s : str) : Prop :=
  s <> [] /\ Forall (fun c => isspace c = false) s.

(** The text ends here or goes on with whitespace. *)
Definition word_end (s : str) : Prop :=
  match s with
  | [] => True
  | c :: _ => isspace c = true
  end.





(** Both files can be written. *)
Definition files_writable (w : World) : Prop :=
  writable (config_txt w) = true /\ writable (macros_txt w) = true.

(* ===================================================================== *)
(** ** Characters, lines and numerals *)
(* ===================================================================== *)

Ltac by_cases_on_char c :=
  destruct c as [[] [] [] [] [] [] [] []]; vm_compute; try reflexivity;
  try discriminate; intuition discriminate.

Lemma isdigit_not_space c : isdigit c = true -> isspace c = false.
Proof. by_cases_on_char c. Qed.

Lemma isdigit_not_nl c : isdigit c = true -> is_nl c = false.
Proof. by_cases_on_char c. Qed.

Lemma isdigit_not_sign c :
  isdigit c = true -> Ascii.eqb c "-" = false /\ Ascii.eqb c "+" = false.
Proof. by_cases_on_char c. Qed.

Lemma streq_eq s t : streq s t = true <-> s = t.
Proof.
  revert t; induction s as [|c s IH]; intros [|d t]; simpl;
    try (split; congruence).
  rewrite andb_true_iff, Ascii.eqb_eq, IH. split.
  - intros [-> ->]; reflexivity.
  - intros H; inversion H; auto.
Qed.

Lemma streq_refl s : streq s s = true.
Proof. apply streq_eq; reflexivity. Qed.

Lemma digit_char_spec d :
  0 <= d < 10 -> isdigit (digit_char d) = true /\ digit_val (digit_char d) = d.
Proof.
  intros H.
  assert (C : d = 0 \/ d = 1 \/ d = 2 \/ d = 3 \/ d = 4 \/ d = 5 \/ d = 6
              \/ d = 7 \/ d = 8 \/ d = 9) by lia.
  repeat (destruct C as [-> | C]; [split; reflexivity|]).
  subst; split; reflexivity.
Qed.

Lemma no_nl_app s t : no_nl s -> no_nl t -> no_nl (s ++ t).
Proof. unfold no_nl; intros; apply Forall_app; auto. Qed.

Lemma no_nl_lit_check s : forallb (fun c => negb (is_nl c)) s = true -> no_nl s.
Proof.
  unfold no_nl; rewrite forallb_forall, Forall_forall.
  intros H c Hc. specialize (H c Hc). now destruct (is_nl c).
Qed.

(** *** Lines *)

Lemma read_line_app l rest :
  no_nl l -> read_line (l ++ nl :: rest) = (l, rest).
Proof.
  induction 1 as [|c l Hc _ IH]; simpl.
  - reflexivity.
  - rewrite Hc, IH. reflexivity.
Qed.

Lemma read_line_no_nl l : no_nl l -> read_line l = (l, []).
Proof.
  induction 1 as [|c l Hc _ IH]; simpl; [reflexivity|].
  rewrite Hc, IH. reflexivity.
Qed.

Lemma getlines_cons_line l rest :
  no_nl l -> getlines (l ++ nl :: rest) = l :: getlines rest.
Proof.
  induction 1 as [|c l Hc _ IH]; simpl.
  - reflexivity.
  - rewrite Hc, IH. reflexivity.
Qed.

Lemma getlines_unlines ls : Forall no_nl ls -> getlines (unlines ls) = ls.
Proof.
  induction 1 as [|l ls Hl _ IH]; simpl; [reflexivity|].
  rewrite <- app_assoc. simpl. rewrite getlines_cons_line, IH; auto.
Qed.

(** The loop over [getline] visits exactly [getlines]. *)
Lemma getlines_getline s :
  getlines s = match getline s with
               | None => []
               | Some (l, r) => l :: getlines r
               end.
Proof.
  induction s as [|c s IH]; [reflexivity|].
  cbn [getlines getline read_line].
  destruct (is_nl c); [reflexivity|].
  rewrite IH. destruct s as [|d s']; [reflexivity|].
  remember (d :: s') as u eqn:Eu. unfold getline. rewrite Eu at 1.
  destruct (read_line u) as [l t]. reflexivity.
Qed.

Lemma getlines_no_nl s : Forall no_nl (getlines s).
Proof.
  induction s as [|c s IH]; simpl; [constructor|].
  destruct (is_nl c) eqn:E.
  - constructor; [constructor | exact IH].
  - destruct (getlines s) as [|l ls].
    + repeat constructor. exact E.
    + inversion IH; subst. constructor; [constructor; assumption | assumption].
Qed.

Lemma read_line_shorter s l r :
  s <> [] -> read_line s = (l, r) -> (List.length r < List.length s)%nat.
Proof.
  revert l r; induction s as [|c s IH]; intros l r Hs; [congruence|].
  simpl. destruct (is_nl c).
  - intros H; inversion H; subst; simpl; lia.
  - destruct s as [|d s'].
    + simpl. intros H; inversion H; subst; simpl; lia.
    + destruct (read_line (d :: s')) as [l' t] eqn:E.
      intros H; inversion H; subst.
      specialize (IH l' r ltac:(discriminate) eq_refl). simpl in *; lia.
Qed.

(** *** Numerals *)

Lemma get_digits_stop k s : no_digit_head s -> get_digits k s = (k, s).
Proof. destruct s as [|c s]; simpl; [reflexivity|]. intros ->. reflexivity. Qed.

(** What [put_digits] writes in front of [acc] is a numeral that reads
    back as [n]. *)
Lemma put_digits_spec fuel :
  forall n acc, 0 <= n < 10 ^ Z.of_nat fuel ->
  exists ds, put_digits fuel n acc = ds ++ acc
    /\ Forall (fun c => isdigit c = true) ds
    /\ (fuel <> O -> ds <> [])
    /\ forall k tail,
         get_digits k (ds ++ tail)
         = get_digits (k * 10 ^ Z.of_nat (List.length ds) + n) tail.
Proof.
  induction fuel as [|f IH]; intros n acc Hn.
  - exists []. change (10 ^ Z.of_nat 0) with 1 in Hn.
    repeat split; auto.
    intros k tail. cbn [app List.length]. f_equal.
    change (10 ^ Z.of_nat 0) with 1. lia.
  - cbn [put_digits].
    assert (Hd : 0 <= n mod 10 < 10) by (apply Z.mod_pos_bound; lia).
    destruct (digit_char_spec _ Hd) as [Dd Dv].
    destruct (Z.eqb_spec (n / 10) 0) as [E|E].
    + exists [digit_char (n mod 10)]. repeat split; auto; try discriminate.
      intros k tail. cbn [app get_digits List.length]. rewrite Dd, Dv.
      f_equal. change (10 ^ Z.of_nat 1) with 10.
      pose proof (Z.div_mod n 10 ltac:(lia)). lia.
    + assert (Hq : 0 <= n / 10 < 10 ^ Z.of_nat f).
      { split; [apply Z.div_pos; lia|].
        apply Z.div_lt_upper_bound; [lia|].
        rewrite Nat2Z.inj_succ, Z.pow_succ_r in Hn; lia. }
      destruct (IH (n / 10) (digit_char (n mod 10) :: acc) Hq)
        as (ds & Eq & Fd & _ & Hg).
      exists (ds ++ [digit_char (n mod 10)]). repeat split.
      * rewrite Eq, <- app_assoc. reflexivity.
      * apply Forall_app; split; auto.
      * intros _ H. apply app_eq_nil in H. destruct H; discriminate.
      * intros k tail. rewrite <- app_assoc. cbn [app]. rewrite Hg.
        cbn [get_digits]. rewrite Dd, Dv. f_equal.
        rewrite length_app, Nat2Z.inj_add. cbn [List.length].
        rewrite Z.pow_add_r by lia.
        pose proof (Z.div_mod n 10 ltac:(lia)).
        change (10 ^ Z.of_nat 1) with 10. lia.
Qed.

Lemma put_unsigned_spec n :
  0 <= n < 10 ^ 20 ->
  exists c ds, put_unsigned n = c :: ds
    /\ Forall (fun c => isdigit c = true) (c :: ds)
    /\ forall tail, no_digit_head tail ->
         get_digits 0 (c :: ds ++ tail) = (n, tail).
Proof.
  intros Hn. unfold put_unsigned.
  destruct (put_digits_spec 20 n [] Hn) as (ds & Eq & Fd & Hne & Hg).
  rewrite app_nil_r in Eq.
  destruct ds as [|c ds]; [exfalso; apply Hne; [discriminate | reflexivity]|].
  exists c, ds. repeat split; auto.
  intros tail Ht. change (c :: ds ++ tail) with ((c :: ds) ++ tail).
  rewrite Hg. apply get_digits_stop. exact Ht.
Qed.

Lemma in_intb_true v : in_int v -> in_intb v = true.
Proof.
  unfold in_int, in_intb. intros [H1 H2].
  apply andb_true_iff; split; apply Z.leb_le; assumption.
Qed.

Lemma in_intb_spec v : in_intb v = true <-> in_int v.
Proof.
  unfold in_int, in_intb. rewrite andb_true_iff, !Z.leb_le. tauto.
Qed.

Lemma numeral_char_plain c :
  numeral_char c -> isspace c = false /\ is_nl c = false.
Proof.
  intros [H | ->]; [|split; reflexivity].
  split; [apply isdigit_not_space | apply isdigit_not_nl]; assumption.
Qed.

Lemma put_int_chars v : in_int v -> Forall numeral_char (put_int v).
Proof.
  unfold in_int, INT_MIN, INT_MAX, put_int. intros Hv.
  destruct (Z.ltb_spec v 0).
  - destruct (put_unsigned_spec (- v) ltac:(lia)) as (c & ds & -> & Fd & _).
    constructor; [right; reflexivity|].
    eapply Forall_impl; [|exact Fd]. intros; left; assumption.
  - destruct (put_unsigned_spec v ltac:(lia)) as (c & ds & -> & Fd & _).
    eapply Forall_impl; [|exact Fd]. intros; left; assumption.
Qed.

Lemma put_int_no_nl v : in_int v -> no_nl (put_int v).
Proof.
  intros H. eapply Forall_impl; [|apply put_int_chars; exact H].
  intros c Hc. apply numeral_char_plain; assumption.
Qed.

(** Reading back a written [int]. *)
Lemma scan_int_put_int v rest :
  in_int v -> no_digit_head rest ->
  scan_int (put_int v ++ rest) = Converted v rest.
Proof.
  intros Hv Hr. pose proof Hv as Hv'.
  unfold in_int, INT_MIN, INT_MAX in Hv'. unfold put_int, scan_int.
  destruct (Z.ltb_spec v 0).
  - destruct (put_unsigned_spec (- v) ltac:(lia)) as (c & ds & -> & Fd & Hg).
    inversion Fd as [|? ? Dc _]; subst.
    cbn [app skipws]. change (isspace "-") with false. cbv iota.
    cbn [scan_sign]. change (Ascii.eqb "-" "-") with true. cbv iota.
    rewrite Dc, (Hg rest Hr), Z.opp_involutive, (in_intb_true v Hv).
    reflexivity.
  - destruct (put_unsigned_spec v ltac:(lia)) as (c & ds & -> & Fd & Hg).
    inversion Fd as [|? ? Dc _]; subst.
    cbn [app skipws]. rewrite (isdigit_not_space c Dc).
    cbn [scan_sign]. destruct (isdigit_not_sign c Dc) as [-> ->].
    rewrite Dc, (Hg rest Hr), (in_intb_true v Hv). reflexivity.
Qed.

Lemma scan_int_skip c s : isspace c = true -> scan_int (c :: s) = scan_int s.
Proof. intros H. unfold scan_int. simpl skipws. rewrite H. reflexivity. Qed.

Lemma get_int_put_int v rest :
  in_int v -> no_digit_head rest ->
  get_int (" "%char :: put_int v ++ rest) = Some (v, rest).
Proof.
  intros Hv Hr. unfold get_int.
  rewrite scan_int_skip by reflexivity.
  rewrite scan_int_put_int by assumption. reflexivity.
Qed.

(** What [scan_int] yields is an [int]. *)
Lemma scan_int_range s v r : scan_int s = Converted v r -> in_int v.
Proof.
  unfold scan_int. destruct (scan_sign (skipws s)) as [neg s1].
  destruct s1 as [|c s1]; [discriminate|].
  destruct (isdigit c); [|discriminate].
  destruct (get_digits 0 (c :: s1)) as [m rest].
  destruct (in_intb _) eqn:E; [|discriminate].
  intros H; inversion H; subst. apply in_intb_spec; exact E.
Qed.

(* ===================================================================== *)
(** ** The macro decoder, line by line *)
(* ===================================================================== *)

Lemma load_inv_init : load_inv load_init.
Proof. intros _. reflexivity. Qed.

Lemma LoadMacros_line_inv st line :
  load_inv st -> load_inv (LoadMacros_line st line).
Proof.
  intros Hst. unfold LoadMacros_line.
  destruct line as [|c line]; [exact Hst|].
  destruct (first_token (c :: line)) as [token iss].
  destruct (streq token (lit "macro")); [intros H; discriminate H|].
  destruct (streq token (lit "end")).
  - destruct (st_in_macro st) eqn:E; [intros _; reflexivity | exact Hst].
  - destruct (st_in_macro st) eqn:E; [|exact Hst].
    destruct (step_action token iss); [intros H; discriminate H | exact Hst].
Qed.

Lemma fold_load_inv lines st :
  load_inv st -> load_inv (fold_left LoadMacros_line lines st).
Proof.
  revert st; induction lines as [|l lines IH]; intros st H; simpl; auto.
  apply IH, LoadMacros_line_inv, H.
Qed.

Lemma LoadMacros_line_shift ms st line :
  LoadMacros_line (shift ms st) line = shift ms (LoadMacros_line st line).
Proof.
  unfold LoadMacros_line.
  destruct line as [|c line]; [reflexivity|].
  destruct (first_token (c :: line)) as [token iss].
  destruct st as [macros cur inm]; unfold shift;
    cbn [st_macros st_current st_in_macro].
  destruct (streq token (lit "macro")).
  - destruct inm; cbn [st_macros st_current st_in_macro];
      rewrite ?app_assoc; reflexivity.
  - destruct (streq token (lit "end")).
    + destruct inm; cbn [st_macros st_current st_in_macro];
        rewrite ?app_assoc; reflexivity.
    + destruct inm; [|reflexivity].
      destruct (step_action token iss); reflexivity.
Qed.

Lemma fold_shift ms lines st :
  fold_left LoadMacros_line lines (shift ms st)
  = shift ms (fold_left LoadMacros_line lines st).
Proof.
  revert st; induction lines as [|l lines IH]; intros st; simpl; auto.
  rewrite LoadMacros_line_shift. apply IH.
Qed.

Lemma finish_shift ms st :
  LoadMacros_finish (shift ms st) = ms ++ LoadMacros_finish st.
Proof.
  unfold LoadMacros_finish, shift; cbn [st_macros st_current st_in_macro].
  destruct (st_in_macro st); rewrite ?app_assoc; reflexivity.
Qed.

(** A header line closes what is open and opens a block of its own. *)
Lemma LoadMacros_line_header st hdr :
  load_inv st -> is_header hdr ->
  LoadMacros_line st hdr
  = mkLoad (LoadMacros_finish st)
           (mkMacro (header_name [] (snd (first_token hdr))) []) true.
Proof.
  intros Hst Hh. unfold is_header, token_of in Hh.
  unfold LoadMacros_line, LoadMacros_finish.
  destruct hdr as [|c hdr]; [discriminate Hh|].
  destruct (first_token (c :: hdr)) as [token iss]. cbn [fst snd] in *.
  rewrite Hh.
  destruct (st_in_macro st) eqn:E; cbn [st_macros st_current name actions].
  - reflexivity.
  - rewrite (Hst E). reflexivity.
Qed.

(** A step line inside a block adds its action, if it has one. *)
Lemma LoadMacros_line_step ms cur line :
  is_step_line line ->
  LoadMacros_line (mkLoad ms cur true) line
  = mkLoad ms (match line_action line with
               | Some act => push_action cur act
               | None => cur
               end) true.
Proof.
  intros [H1 H2]. unfold token_of in *. unfold LoadMacros_line, line_action.
  destruct line as [|c line]; [reflexivity|].
  destruct (first_token (c :: line)) as [token iss]. cbn [fst snd] in *.
  rewrite H1, H2. cbn [st_in_macro st_macros st_current].
  destruct (step_action token iss); reflexivity.
Qed.

Lemma fold_body ms nm body :
  Forall is_step_line body ->
  forall acts,
  fold_left LoadMacros_line body (mkLoad ms (mkMacro nm acts) true)
  = mkLoad ms (mkMacro nm (acts ++ body_actions body)) true.
Proof.
  induction 1 as [|l body Hl _ IH]; intros acts; cbn [fold_left body_actions].
  - rewrite app_nil_r. reflexivity.
  - rewrite LoadMacros_line_step by exact Hl.
    destruct (line_action l) as [act|].
    + unfold push_action; cbn [name actions]. rewrite IH, <- app_assoc.
      reflexivity.
    + apply IH.
Qed.

(** A whole block, up to but not including what closes it. *)
Lemma fold_block st hdr body :
  load_inv st -> is_header hdr -> Forall is_step_line body ->
  fold_left LoadMacros_line (hdr :: body) st
  = mkLoad (LoadMacros_finish st) (header_macro hdr body) true.
Proof.
  intros Hst Hh Hb. cbn [fold_left].
  rewrite LoadMacros_line_header by assumption.
  rewrite fold_body by assumption. reflexivity.
Qed.

Lemma LoadMacros_line_end ms cur :
  LoadMacros_line (mkLoad ms cur true) (lit "end")
  = mkLoad (ms ++ [cur]) empty_macro false.
Proof. reflexivity. Qed.

Lemma LoadMacros_lines_app_closed pre post :
  st_in_macro (fold_left LoadMacros_line pre load_init) = false ->
  LoadMacros_lines (pre ++ post)
  = LoadMacros_lines pre ++ LoadMacros_lines post.
Proof.
  intros H. unfold LoadMacros_lines. rewrite fold_left_app.
  pose proof (fold_load_inv pre load_init load_inv_init) as Hinv.
  destruct (fold_left LoadMacros_line pre load_init) as [ms cur inm].
  cbn [st_in_macro] in H. subst inm. specialize (Hinv eq_refl).
  cbn [st_current] in Hinv. subst cur.
  replace (mkLoad ms empty_macro false) with (shift ms load_init)
    by (unfold shift, load_init; cbn [st_macros st_current st_in_macro];
        rewrite app_nil_r; reflexivity).
  rewrite fold_shift, !finish_shift.
  change (LoadMacros_finish load_init) with (@nil Macro).
  rewrite app_nil_r. reflexivity.
Qed.

(** A header line is a cut point: what precedes it is decoded on its own. *)
Lemma LoadMacros_lines_cut_header pre hdr rest :
  is_header hdr ->
  LoadMacros_lines (pre ++ hdr :: rest)
  = LoadMacros_lines pre ++ LoadMacros_lines (hdr :: rest).
Proof.
  intros Hh. unfold LoadMacros_lines. rewrite fold_left_app.
  pose proof (fold_load_inv pre load_init load_inv_init) as Hinv.
  set (st := fold_left LoadMacros_line pre load_init) in *.
  cbn [fold_left].
  rewrite (LoadMacros_line_header st hdr Hinv Hh).
  rewrite (LoadMacros_line_header load_init hdr load_inv_init Hh).
  change (LoadMacros_finish load_init) with (@nil Macro).
  set (cur := mkMacro _ []).
  replace (mkLoad (LoadMacros_finish st) cur true)
    with (shift (LoadMacros_finish st) (mkLoad [] cur true))
    by (unfold shift; cbn [st_macros st_current st_in_macro];
        rewrite app_nil_r; reflexivity).
  rewrite fold_shift, finish_shift. reflexivity.
Qed.

Lemma LoadMacros_lines_open_block pre hdr body :
  is_header hdr -> Forall is_step_line body ->
  LoadMacros_lines (pre ++ hdr :: body)
  = LoadMacros_lines pre ++ [header_macro hdr body].
Proof.
  intros Hh Hb. unfold LoadMacros_lines. rewrite fold_left_app.
  rewrite fold_block by auto using fold_load_inv, load_inv_init.
  reflexivity.
Qed.

Lemma LoadMacros_lines_closed_block pre hdr body :
  is_header hdr -> Forall is_step_line body ->
  LoadMacros_lines (pre ++ hdr :: body ++ [lit "end"])
  = LoadMacros_lines pre ++ [header_macro hdr body]
  /\ st_in_macro (fold_left LoadMacros_line
                    (pre ++ hdr :: body ++ [lit "end"]) load_init) = false.
Proof.
  intros Hh Hb. unfold LoadMacros_lines.
  change (hdr :: body ++ [lit "end"]) with ((hdr :: body) ++ [lit "end"]).
  rewrite !fold_left_app.
  rewrite (fold_block _ hdr body) by auto using fold_load_inv, load_inv_init.
  cbn [fold_left]. rewrite LoadMacros_line_end. split; reflexivity.
Qed.

(** C6 (EOF-as-close).  When the lines of the macro file end inside a block
    (a header line followed by step lines only, no [end] line), the block is
    still decoded: the result is what the preceding lines give, followed by
    the macro of that header with the actions of all its step lines.  It is
    the result the same file gives with an [end] line added. *)
Theorem LoadMacros_eof_closes_block w text pre hdr body :
  content (macros_txt w) = Some text ->
  getlines text = pre ++ hdr :: body ->
  is_header hdr ->
  Forall is_step_line body ->
  LoadMacros w = LoadMacros_lines pre ++ [header_macro hdr body]
  /\ LoadMacros w = LoadMacros_lines (pre ++ hdr :: body ++ [lit "end"]).
Proof.
  intros Hc Hl Hh Hb. unfold LoadMacros. rewrite Hc, Hl.
  rewrite LoadMacros_lines_open_block by assumption.
  split; [reflexivity|].
  symmetry. apply LoadMacros_lines_closed_block; assumption.
Qed.

(** C7 (a header closes the open block).  When a header line follows a
    block that no [end] line has closed, the open block is emitted as a
    macro with the actions of its step lines, and decoding goes on with the
    new header as if the file started there.  It is the result the same
    file gives with an [end] line before the new header. *)
Theorem LoadMacros_header_closes_block w text pre hdr body hdr2 rest :
  content (macros_txt w) = Some text ->
  getlines text = pre ++ hdr :: body ++ hdr2 :: rest ->
  is_header hdr ->
  Forall is_step_line body ->
  is_header hdr2 ->
  LoadMacros w
  = LoadMacros_lines pre ++ header_macro hdr body
      :: LoadMacros_lines (hdr2 :: rest)
  /\ LoadMacros w
     = LoadMacros_lines (pre ++ hdr :: body ++ lit "end" :: hdr2 :: rest).
Proof.
  intros Hc Hl Hh Hb Hh2. unfold LoadMacros. rewrite Hc, Hl.
  assert (E : LoadMacros_lines (pre ++ hdr :: body ++ hdr2 :: rest)
              = LoadMacros_lines pre ++ header_macro hdr body
                  :: LoadMacros_lines (hdr2 :: rest)).
  { replace (pre ++ hdr :: body ++ hdr2 :: rest)
      with ((pre ++ hdr :: body) ++ hdr2 :: rest)
      by (rewrite <- app_assoc; reflexivity).
    rewrite LoadMacros_lines_cut_header by assumption.
    rewrite LoadMacros_lines_open_block by assumption.
    rewrite <- app_assoc. reflexivity. }
  split; [exact E|]. rewrite E.
  replace (pre ++ hdr :: body ++ lit "end" :: hdr2 :: rest)
    with ((pre ++ hdr :: body ++ [lit "end"]) ++ hdr2 :: rest)
    by (rewrite <- !app_assoc; cbn [app]; rewrite <- app_assoc; reflexivity).
  rewrite LoadMacros_lines_cut_header by assumption.
  destruct (LoadMacros_lines_closed_block pre hdr body Hh Hb) as [-> _].
  rewrite <- app_assoc. reflexivity.
Qed.

(* ===================================================================== *)
(** ** The macro encoder, and decoding what it writes *)
(* ===================================================================== *)

Lemma unlines_app xs ys : unlines (xs ++ ys) = unlines xs ++ unlines ys.
Proof. unfold unlines. apply flat_map_app. Qed.

Lemma SaveMacros_action_line act :
  SaveMacros_action act = action_line act ++ [nl].
Proof.
  unfold SaveMacros_action, action_line.
  destruct (type act); rewrite <- ?app_assoc; reflexivity.
Qed.

Lemma unlines_action_lines l :
  unlines (map action_line l) = flat_map SaveMacros_action l.
Proof.
  induction l as [|act l IH]; [reflexivity|].
  cbn [map flat_map]. rewrite SaveMacros_action_line, <- IH. reflexivity.
Qed.

Lemma SaveMacros_macro_lines m : SaveMacros_macro m = unlines (macro_lines m).
Proof.
  unfold SaveMacros_macro, macro_lines.
  change (unlines ((lit "macro " ++ name m)
                   :: map action_line (actions m) ++ [lit "end"]))
    with (((lit "macro " ++ name m) ++ [nl])
          ++ unlines (map action_line (actions m) ++ [lit "end"])).
  rewrite unlines_app, unlines_action_lines, <- !app_assoc. reflexivity.
Qed.

Lemma SaveMacros_text_lines macros :
  SaveMacros_text macros = unlines (flat_map macro_lines macros).
Proof.
  induction macros as [|m l IH]; [reflexivity|].
  cbn [SaveMacros_text flat_map]. rewrite unlines_app.
  rewrite SaveMacros_macro_lines. f_equal. exact IH.
Qed.

Lemma no_nl_action_line act : wf_action act -> no_nl (action_line act).
Proof.
  intros (Ha & Hb & _). unfold action_line.
  destruct (type act).
  - repeat apply no_nl_app; auto using put_int_no_nl;
      apply no_nl_lit_check; reflexivity.
  - destruct (a act =? 1); apply no_nl_lit_check; reflexivity.
  - apply no_nl_app; auto using put_int_no_nl.
    apply no_nl_lit_check; reflexivity.
  - apply no_nl_app; auto using put_int_no_nl.
    apply no_nl_lit_check; reflexivity.
Qed.

Lemma no_nl_macro_lines m :
  no_nl (name m) -> Forall wf_action (actions m) ->
  Forall no_nl (macro_lines m).
Proof.
  intros Hn Ha. unfold macro_lines. constructor.
  - apply no_nl_app; [apply no_nl_lit_check; reflexivity | exact Hn].
  - apply Forall_app; split.
    + apply Forall_map. eapply Forall_impl; [|exact Ha].
      apply no_nl_action_line.
    + repeat constructor.
Qed.

Lemma is_header_macro_line nm : is_header (lit "macro " ++ nm).
Proof. reflexivity. Qed.

Lemma header_name_macro_line nm :
  no_nl nm -> header_name [] (snd (first_token (lit "macro " ++ nm))) = nm.
Proof.
  intros Hn.
  change (snd (first_token (lit "macro " ++ nm))) with (" "%char :: nm).
  unfold header_name, getline.
  rewrite (read_line_no_nl (" "%char :: nm)); [reflexivity|].
  constructor; [reflexivity | exact Hn].
Qed.

Lemma is_step_line_action_line act : is_step_line (action_line act).
Proof.
  unfold action_line. destruct (type act); split; reflexivity.
Qed.

Lemma line_action_action_line act :
  wf_action act -> line_action (action_line act) = Some act.
Proof.
  destruct act as [ty x y]. unfold wf_action, action_line, line_action.
  cbn [type a b]. intros (Hx & Hy & Hty). destruct ty.
  - change (first_token (lit "move " ++ put_int x ++ lit " " ++ put_int y))
      with (lit "move", " "%char :: put_int x ++ " "%char :: put_int y).
    cbn [fst snd]. unfold step_action.
    change (parse_step (lit "move"))
      with (ex_bind get_int (fun dx =>
              ex_bind get_int (fun dy => ex_ret (mkAction Move dx dy)))).
    unfold ex_bind. rewrite get_int_put_int by (auto; reflexivity).
    rewrite <- (app_nil_r (put_int y)).
    rewrite get_int_put_int by (auto; exact I). reflexivity.
  - destruct Hty as [[-> | ->] ->]; reflexivity.
  - subst y.
    change (first_token (lit "key " ++ put_int x))
      with (lit "key", " "%char :: put_int x).
    cbn [fst snd]. unfold step_action.
    change (parse_step (lit "key"))
      with (ex_bind get_int (fun vk => ex_ret (mkAction Key vk 0))).
    unfold ex_bind. rewrite <- (app_nil_r (put_int x)).
    rewrite get_int_put_int by (auto; exact I). reflexivity.
  - subst y.
    change (first_token (lit "delay " ++ put_int x))
      with (lit "delay", " "%char :: put_int x).
    cbn [fst snd]. unfold step_action.
    change (parse_step (lit "delay"))
      with (ex_bind get_int (fun ms => ex_ret (mkAction Delay ms 0))).
    unfold ex_bind. rewrite <- (app_nil_r (put_int x)).
    rewrite get_int_put_int by (auto; exact I). reflexivity.
Qed.

Lemma body_actions_app xs ys :
  body_actions (xs ++ ys) = body_actions xs ++ body_actions ys.
Proof.
  induction xs as [|l xs IH]; [reflexivity|]. cbn [app body_actions].
  destruct (line_action l); rewrite IH; reflexivity.
Qed.

Lemma body_actions_action_lines acts :
  Forall wf_action acts -> body_actions (map action_line acts) = acts.
Proof.
  induction 1 as [|act acts Ha _ IH]; [reflexivity|].
  cbn [map body_actions]. rewrite line_action_action_line by exact Ha.
  rewrite IH. reflexivity.
Qed.

Lemma is_step_line_action_lines acts :
  Forall is_step_line (map action_line acts).
Proof.
  apply Forall_map, Forall_forall. intros; apply is_step_line_action_line.
Qed.

(** A [move] line whose integers cannot be extracted adds nothing. *)
Lemma bad_move_line args :
  move_args_fail args ->
  is_step_line (lit "move " ++ args)
  /\ line_action (lit "move " ++ args) = None.
Proof.
  intros H. split; [split; reflexivity|].
  unfold line_action.
  change (first_token (lit "move " ++ args))
    with (lit "move", " "%char :: args).
  cbn [fst snd]. unfold step_action.
  change (parse_step (lit "move"))
    with (ex_bind get_int (fun dx =>
            ex_bind get_int (fun dy => ex_ret (mkAction Move dx dy)))).
  unfold ex_bind, move_args_fail in *.
  assert (E : get_int (" "%char :: args) = get_int args).
  { unfold get_int. rewrite scan_int_skip by reflexivity. reflexivity. }
  rewrite E. destruct (get_int args) as [[dx r]|]; [|reflexivity].
  rewrite H. reflexivity.
Qed.

Lemma LoadMacros_lines_encoded macros :
  Forall (fun m => no_nl (name m) /\ Forall wf_action (actions m)) macros ->
  LoadMacros_lines (flat_map macro_lines macros) = macros.
Proof.
  induction 1 as [|m l [Hn Ha] _ IH]; [reflexivity|].
  cbn [flat_map].
  pose proof (LoadMacros_lines_closed_block [] (lit "macro " ++ name m)
                (map action_line (actions m))
                (is_header_macro_line _) (is_step_line_action_lines _))
    as EC.
  change (LoadMacros_lines (macro_lines m)
          = [header_macro (lit "macro " ++ name m)
                          (map action_line (actions m))]
          /\ st_in_macro (fold_left LoadMacros_line (macro_lines m) load_init)
             = false) in EC.
  destruct EC as [E C].
  rewrite LoadMacros_lines_app_closed by exact C.
  rewrite E, IH. unfold header_macro.
  rewrite header_name_macro_line, body_actions_action_lines by assumption.
  destruct m; reflexivity.
Qed.

(** C1 (codec round trip, amended).  Saving a store and loading the file
    again gives back the same macros, names and actions in order, for every
    store whose names are non-empty and contain no line break and whose
    actions are as the program builds them ([wf_action]: [int] fields, a
    [Click] code of 0 or 1, an unused second field of 0). *)
Theorem SaveMacros_LoadMacros macros w :
  Forall wf_macro macros ->
  writable (macros_txt w) = true ->
  LoadMacros (snd (SaveMacros macros w)) = macros.
Proof.
  intros Hwf Hw. unfold SaveMacros. rewrite Hw.
  unfold write_macros_txt, LoadMacros. cbn [snd macros_txt content].
  rewrite SaveMacros_text_lines, getlines_unlines.
  - apply LoadMacros_lines_encoded.
    eapply Forall_impl; [|exact Hwf]. intros m (_ & Hn & Ha). auto.
  - apply Forall_flat_map.
    eapply Forall_impl; [|exact Hwf]. intros m (_ & Hn & Ha).
    apply no_nl_macro_lines; assumption.
Qed.

(** C1 as stated fails: a non-empty name with a line break inside it is
    written as two lines, and only the first comes back as the name. *)
Lemma SaveMacros_LoadMacros_newline_name :
  Forall (fun m => name m <> [] /\ Forall button_ok (actions m)) newline_named
  /\ LoadMacros (snd (SaveMacros newline_named blank_world))
     = [mkMacro (lit "A") []]
  /\ LoadMacros (snd (SaveMacros newline_named blank_world)) <> newline_named.
Proof.
  split; [|split].
  - repeat constructor. discriminate.
  - reflexivity.
  - intros H. vm_compute in H. discriminate H.
Qed.

(** A line whose first word is [move] adds nothing exactly when the two
    integers cannot be extracted from what follows the word. *)
Lemma move_line_action line :
  token_of line = lit "move" ->
  line_action line = None <-> move_args_fail (snd (first_token line)).
Proof.
  unfold token_of, line_action, move_args_fail. intros ->.
  unfold step_action.
  change (parse_step (lit "move"))
    with (ex_bind get_int (fun dx =>
            ex_bind get_int (fun dy => ex_ret (mkAction Move dx dy)))).
  unfold ex_bind, ex_ret.
  destruct (get_int (snd (first_token line))) as [[dx r]|];
    [|split; intros; [exact I | reflexivity]].
  destruct (get_int r) as [[dy r']|]; cbn [option_map fst];
    split; intros H; try reflexivity; discriminate H.
Qed.

(** Which [move] lines are dropped and which are kept. *)
Example move_line_examples :
  line_action (lit "move 1 x") = None
  /\ line_action (lit "move 1x 2") = None
  /\ line_action (lit "move 1.5 2") = None
  /\ line_action (lit "move 99999999999 2") = None
  /\ line_action (lit "move 1 2x") = Some (mkAction Move 1 2)
  /\ line_action (lit "move 1 2 abc") = Some (mkAction Move 1 2)
  /\ line_action (lit "move 1-2") = Some (mkAction Move 1 (-2)).
Proof. repeat split; reflexivity. Qed.

(** C3 (decoding drops what it cannot read, amended).  [LoadMacros] is a
    total function of the world: no outcome other than a list of macros
    exists.  Take any block: a header line, then lines that are neither
    header nor [end] lines, among them a line whose first word is [move]
    and from which the two integers cannot be extracted, then an [end]
    line.  The block decodes to the macro of the header with the actions
    of all the other lines, in order: each line that decodes to an action
    adds it, the [move] line and every other line that does not decode add
    nothing.  The lines before the block and after its [end] line are
    decoded as they would be on their own.  A line whose first word is
    [move] is dropped exactly when that extraction fails. *)
Theorem LoadMacros_drops_bad_move w text pre hdr before bad after post :
  content (macros_txt w) = Some text ->
  getlines text
  = pre ++ hdr :: (before ++ bad :: after) ++ lit "end" :: post ->
  is_header hdr ->
  Forall is_step_line before ->
  Forall is_step_line after ->
  token_of bad = lit "move" ->
  move_args_fail (snd (first_token bad)) ->
  LoadMacros w
  = LoadMacros_lines pre
      ++ mkMacro (header_name [] (snd (first_token hdr)))
                 (body_actions before ++ body_actions after)
      :: LoadMacros_lines post
  /\ (forall line act rest,
        line_action line = Some act ->
        body_actions (line :: rest) = act :: body_actions rest)
  /\ (forall line,
        token_of line = lit "move" ->
        line_action line = None <-> move_args_fail (snd (first_token line))).
Proof.
  intros Hc Hl Hh Hb Ha Ht Hf.
  split; [|split; [|exact move_line_action]].
  - unfold LoadMacros. rewrite Hc, Hl.
    set (body := before ++ bad :: after).
    assert (Bn : line_action bad = None)
      by (apply move_line_action; assumption).
    assert (Bs : is_step_line bad)
      by (unfold is_step_line; rewrite Ht; split; reflexivity).
    assert (Hbody : Forall is_step_line body).
    { apply Forall_app; split; [exact Hb|]. constructor; assumption. }
    replace (pre ++ hdr :: body ++ lit "end" :: post)
      with ((pre ++ hdr :: body ++ [lit "end"]) ++ post)
      by (rewrite <- !app_assoc; cbn [app]; rewrite <- app_assoc;
          reflexivity).
    destruct (LoadMacros_lines_closed_block pre hdr body Hh Hbody) as [E C].
    rewrite LoadMacros_lines_app_closed by exact C.
    transitivity ((LoadMacros_lines pre ++ [header_macro hdr body])
                  ++ LoadMacros_lines post); [f_equal; exact E|].
    rewrite <- app_assoc. cbn [app]. do 2 f_equal.
    unfold header_macro. f_equal. unfold body.
    rewrite body_actions_app. cbn [body_actions]. rewrite Bn. reflexivity.
  - intros line act rest H. cbn [body_actions]. rewrite H. reflexivity.
Qed.

(** C3 as stated fails: the line [move 1 2x] contains the word [2x], which
    is not a numeral, and is decoded as a move by (1, 2). *)
Lemma LoadMacros_keeps_move_with_trailing_text :
  In (lit "2x") (spec_words (lit "move 1 2x"))
  /\ spec_numeric_token (lit "2x") = false
  /\ LoadMacros (with_macros_txt trailing_text_file blank_world)
     = [mkMacro (lit "m") [mkAction Move 1 2]].
Proof.
  split; [|split].
  - vm_compute. tauto.
  - reflexivity.
  - reflexivity.
Qed.

(* ===================================================================== *)
(** ** Replay *)
(* ===================================================================== *)

Lemma RunMacro_action_calls config act w :
  calls (snd (RunMacro_action config act w))
  = calls w ++ replay_calls config act.
Proof.
  unfold RunMacro_action, replay_calls, SendMouseClick.
  destruct (type act); try destruct (a act =? 1); cbn;
    rewrite <- ?app_assoc; reflexivity.
Qed.

Lemma for_each_RunMacro_action_calls config acts :
  forall w,
  calls (snd (for_each (RunMacro_action config) acts w))
  = calls w ++ flat_map (replay_calls config) acts.
Proof.
  induction acts as [|act acts IH]; intros w.
  - cbn. rewrite app_nil_r. reflexivity.
  - cbn [for_each flat_map]. unfold bind at 1.
    pose proof (RunMacro_action_calls config act w) as H.
    destruct (RunMacro_action config act w) as [u w']. cbn [snd] in H.
    rewrite IH, H, app_assoc. reflexivity.
Qed.

(** C2 (replay order and timing).  Running a macro makes, after the calls
    made before, exactly the calls of its actions in order: a [Move] sends
    the relative motion and then sleeps [default_delay_ms]; a [Click] sends
    button down and up (right for code 1, left otherwise) and then sleeps
    [default_delay_ms]; a [Key] sends key down and up and then sleeps
    [default_delay_ms]; a [Delay] only sleeps its own time. *)
Theorem RunMacro_calls macro config w :
  calls (snd (RunMacro macro config w))
  = calls w ++ flat_map (replay_calls config) (actions macro).
Proof.
  unfold RunMacro, bind. cbn [print].
  set (w1 := mkWorld _ _ _ _ _ _).
  pose proof (for_each_RunMacro_action_calls config (actions macro) w1) as H.
  destruct (for_each (RunMacro_action config) (actions macro) w1) as [u w2].
  cbn [snd calls] in *. exact H.
Qed.

(** The scenario of the specification. *)
Example RunMacro_scenario :
  calls (snd (RunMacro
                (mkMacro (lit "demo")
                   [mkAction Move 10 5; mkAction Delay 200 0;
                    mkAction Click 0 0])
                (mkConfig 50) blank_world))
  = [SendInput [INPUT_MOUSE 10 5 MOUSEEVENTF_MOVE]; Sleep 50; Sleep 200;
     SendInput [INPUT_MOUSE 0 0 MOUSEEVENTF_LEFTDOWN;
                INPUT_MOUSE 0 0 MOUSEEVENTF_LEFTUP];
     Sleep 50].
Proof. reflexivity. Qed.

(* ===================================================================== *)
(** ** The configuration file *)
(* ===================================================================== *)

Lemma LoadConfig_line_delay config value :
  LoadConfig_line config (lit "default_delay_ms=" ++ value)
  = match stoi value with
    | Returned v => mkConfig v
    | Thrown _ => mkConfig 50
    end.
Proof. reflexivity. Qed.

(** Menu entry 5 never stores a negative delay. *)
Lemma main_set_delay_nonneg config w :
  0 <= default_delay_ms config ->
  0 <= default_delay_ms (fst (main_set_delay config w)).
Proof.
  intros H. unfold main_set_delay, bind.
  destruct (ReadIndex _ w) as [delay w1].
  destruct (Z.ltb_spec delay 0); cbn; [exact H | assumption].
Qed.

(** C4 (the delay is never negative): the program breaks it.  Menu entry 5
    refuses a negative delay ([main_set_delay_nonneg]), but [LoadConfig]
    takes whatever integer the file holds: from a file with the line
    [default_delay_ms=-5] it returns a delay of -5. *)
Theorem LoadConfig_negative_delay :
  default_delay_ms
    (LoadConfig (with_config_txt negative_delay_file blank_world))
  = -5.
Proof. reflexivity. Qed.

(** C5 (configuration parse failures).  Loading a configuration always
    returns a record.  A line [default_delay_ms=<value>] whose value [stoi]
    rejects sets the delay to 50 whatever it was before, so a file that
    ends with such a line loads as 50; and so does a file that cannot be
    opened. *)
Theorem LoadConfig_parse_failure w text pre value e config absent :
  content (config_txt w) = Some text ->
  getlines text = pre ++ [lit "default_delay_ms=" ++ value] ->
  stoi value = Thrown e ->
  content (config_txt absent) = None ->
  LoadConfig_line config (lit "default_delay_ms=" ++ value) = mkConfig 50
  /\ LoadConfig w = mkConfig 50
  /\ LoadConfig absent = mkConfig 50.
Proof.
  intros Hc Hl Hs Ha.
  assert (L : forall c,
             LoadConfig_line c (lit "default_delay_ms=" ++ value)
             = mkConfig 50).
  { intros c. rewrite LoadConfig_line_delay, Hs. reflexivity. }
  split; [apply L|]. split.
  - unfold LoadConfig. rewrite Hc, Hl, fold_left_app. cbn [fold_left].
    apply L.
  - unfold LoadConfig. rewrite Ha. reflexivity.
Qed.

(* ===================================================================== *)
(** ** Deleting a macro *)
(* ===================================================================== *)

Lemma wrap_int_small v : in_int v -> wrap_int v = v.
Proof.
  unfold in_int, INT_MIN, INT_MAX, wrap_int. intros H.
  rewrite Z.mod_small by lia. lia.
Qed.

(** A wrapped size never lets an index past the end of the vector. *)
Lemma size_as_int_le {A} (l : list A) :
  size_as_int l <= Z.of_nat (List.length l).
Proof.
  unfold size_as_int, wrap_int.
  pose proof (Z.mod_le (Z.of_nat (List.length l) + 2 ^ 31) (2 ^ 32)
                ltac:(lia) ltac:(lia)).
  lia.
Qed.

Lemma erase_spec {A} (k : nat) (l : list A) :
  (k < List.length l)%nat ->
  exists before x after,
    l = before ++ x :: after /\ List.length before = k
    /\ erase k l = before ++ after.
Proof.
  intros Hk. unfold erase.
  destruct (skipn k l) as [|x after] eqn:E.
  - apply (f_equal (@List.length A)) in E. rewrite length_skipn in E.
    simpl in E. lia.
  - exists (firstn k l), x, after. repeat split.
    + rewrite <- E. symmetry. apply firstn_skipn.
    + apply firstn_length_le. lia.
    + f_equal. change (S k) with (1 + k)%nat.
      rewrite <- skipn_skipn, E. reflexivity.
Qed.

(** The index that passes the range test of the menu names an element:
    the branch of [main_run] for a missing element is never taken. *)
Lemma checked_index_in_range {A} (l : list A) index :
  (index <? 1) || (index >? size_as_int l) = false ->
  nth_error l (Z.to_nat (index - 1)) <> None.
Proof.
  intros H. apply orb_false_iff in H. destruct H as [H1 H2].
  apply Z.ltb_ge in H1. rewrite Z.gtb_ltb in H2. apply Z.ltb_ge in H2.
  pose proof (size_as_int_le l). apply nth_error_Some. lia.
Qed.

(** C8 (delete by position, amended).  Let [p] be the number read at the
    prompt of menu entry 4, for a store whose size fits an [int] (at most
    [INT_MAX] macros: the size is cast to [int] for the test).  If [p] is a
    position of the store (counted from 1), the macro at that position is
    removed and all others stay in their order, with the notice
    [Macro removed.]; otherwise the store is returned unchanged with the
    notice [Invalid macro number.]. *)
Theorem main_delete_spec macros w p w1 :
  Z.of_nat (List.length macros) <= INT_MAX ->
  ReadIndex (lit "Macro number to delete: ") (snd (ListMacros macros w))
  = (p, w1) ->
  (1 <= p <= Z.of_nat (List.length macros) ->
   exists before m after,
     macros = before ++ m :: after
     /\ Z.of_nat (List.length before) = p - 1
     /\ main_delete macros w
        = (before ++ after, snd (print (lit "Macro removed." ++ [nl]) w1)))
  /\ (~ 1 <= p <= Z.of_nat (List.length macros) ->
      main_delete macros w
      = (macros, snd (print (lit "Invalid macro number." ++ [nl]) w1))).
Proof.
  intros Hsize Hread.
  assert (Hs : size_as_int macros = Z.of_nat (List.length macros)).
  { apply wrap_int_small. unfold in_int, INT_MIN, INT_MAX in *. lia. }
  unfold main_delete, bind.
  destruct (ListMacros macros w) as [u w0]. cbn [snd] in Hread.
  rewrite Hread, Hs. split.
  - intros [H1 H2].
    destruct (Z.ltb_spec p 1); [lia|].
    destruct (Z.gtb_spec p (Z.of_nat (List.length macros))); [lia|].
    cbn [orb].
    destruct (erase_spec (Z.to_nat (p - 1)) macros ltac:(lia))
      as (before & m & after & E1 & E2 & E3).
    exists before, m, after. repeat split; [exact E1 | lia |].
    rewrite E3. reflexivity.
  - intros Hn.
    destruct (Z.ltb_spec p 1); [reflexivity|].
    destruct (Z.gtb_spec p (Z.of_nat (List.length macros)));
      [reflexivity | lia].
Qed.

Lemma ListMacros_from_cin macros :
  forall i w, cin (snd (ListMacros_from i macros w)) = cin w.
Proof.
  induction macros as [|m ms IH]; intros i w; [reflexivity|].
  cbn [ListMacros_from]. unfold bind. cbn [print].
  rewrite IH. reflexivity.
Qed.

Lemma ListMacros_cin macros w : cin (snd (ListMacros macros w)) = cin w.
Proof.
  unfold ListMacros. destruct macros; [reflexivity|].
  apply ListMacros_from_cin.
Qed.

Lemma ReadIndex_line prompt w line rest :
  no_nl line ->
  cin w = line ++ nl :: rest ->
  fst (ReadIndex prompt w)
  = match stoi line with
    | Returned v => v
    | Thrown _ => -1
    end.
Proof.
  intros Hn Hc. unfold ReadIndex, bind, cin_getline. cbn [print cin].
  rewrite Hc. unfold getline.
  destruct (line ++ nl :: rest) eqn:E; [destruct line; discriminate|].
  rewrite <- E, read_line_app by exact Hn.
  destruct (stoi line); reflexivity.
Qed.

Lemma huge_store_size : Z.of_nat (List.length huge_store) = 2 ^ 31.
Proof.
  unfold huge_store. rewrite repeat_length. apply Z2Nat.id. lia.
Qed.

(** C8 as stated fails for a store that an [int] cannot count: with
    2^31 macros the size is cast to [INT_MIN], so position 1, which is a
    position of the store, is refused and the store stays as it is. *)
Lemma main_delete_huge_store :
  1 <= 1 <= Z.of_nat (List.length huge_store)
  /\ fst (main_delete huge_store (typed [lit "1"])) = huge_store.
Proof.
  split; [rewrite huge_store_size; lia|].
  unfold main_delete, bind.
  pose proof (ListMacros_cin huge_store (typed [lit "1"])) as Hc.
  destruct (ListMacros huge_store (typed [lit "1"])) as [u w0].
  cbn [snd] in Hc.
  pose proof (ReadIndex_line (lit "Macro number to delete: ") w0
                (lit "1") [] ltac:(apply no_nl_lit_check; reflexivity) Hc)
    as Hr.
  destruct (ReadIndex (lit "Macro number to delete: ") w0) as [index w1].
  cbn [fst] in Hr. change (match stoi (lit "1") with
                           | Returned v => v
                           | Thrown _ => -1
                           end) with 1 in Hr.
  subst index. unfold size_as_int. rewrite huge_store_size.
  reflexivity.
Qed.

(* ===================================================================== *)
(** ** Creating a macro *)
(* ===================================================================== *)

Lemma reads_forward_ret {A} (x : A) : reads_forward (ret x).
Proof. intros w. cbn. lia. Qed.

Lemma reads_forward_print s : reads_forward (print s).
Proof. intros w. cbn. lia. Qed.

Lemma reads_forward_bind {A B} (m : IO A) (k : A -> IO B) :
  reads_forward m -> (forall x, reads_forward (k x)) ->
  reads_forward (bind m k).
Proof.
  intros Hm Hk w. unfold bind. specialize (Hm w).
  destruct (m w) as [x w1]. cbn [snd] in Hm.
  specialize (Hk x w1). lia.
Qed.

Lemma getline_shorter s l r :
  getline s = Some (l, r) -> (List.length r < List.length s)%nat.
Proof.
  unfold getline. destruct s as [|c s]; [discriminate|].
  intros H. inversion H as [E].
  eapply read_line_shorter; [discriminate | exact E].
Qed.

Lemma reads_forward_cin_getline : reads_forward cin_getline.
Proof.
  intros w. unfold cin_getline.
  destruct (getline (cin w)) as [[l r]|] eqn:E; cbn; [|lia].
  apply getline_shorter in E. lia.
Qed.

Lemma reads_forward_ReadIndex prompt : reads_forward (ReadIndex prompt).
Proof.
  unfold ReadIndex.
  apply reads_forward_bind; [apply reads_forward_print | intros _].
  apply reads_forward_bind; [apply reads_forward_cin_getline | intros input].
  destruct input as [line|]; [|apply reads_forward_ret].
  destruct (stoi line); apply reads_forward_ret.
Qed.

Lemma reads_forward_ReadLine prompt : reads_forward (ReadLine prompt).
Proof.
  unfold ReadLine.
  apply reads_forward_bind; [apply reads_forward_print | intros _].
  apply reads_forward_bind; [apply reads_forward_cin_getline | intros input].
  destruct input; apply reads_forward_ret.
Qed.

Ltac reads_forward_tac :=
  repeat first
    [ apply reads_forward_ret
    | apply reads_forward_print
    | apply reads_forward_ReadIndex
    | apply reads_forward_ReadLine
    | apply reads_forward_bind; [|intros ?]
    | match goal with
      | |- reads_forward (if ?c then _ else _) => destruct c
      end ].

(** A pass that stays in the loop has read at least one character. *)
Lemma CreateMacro_step_reads macro w m' w' :
  CreateMacro_step macro w = ((Continue, m'), w') ->
  (List.length (cin w') < List.length (cin w))%nat.
Proof.
  unfold CreateMacro_step. unfold bind at 1. cbn [print].
  set (w1 := mkWorld _ _ _ _ _ _).
  change (cin w) with (cin w1). clearbody w1.
  unfold bind at 1. unfold cin_getline.
  destruct (getline (cin w1)) as [[step r]|] eqn:E; [|discriminate].
  apply getline_shorter in E.
  match goal with
  | |- ?k (set_cin r w1) = _ -> _ =>
      assert (F : reads_forward k) by reads_forward_tac;
      specialize (F (set_cin r w1)); intros H; rewrite H in F
  end.
  cbn [snd set_cin cin] in F. lia.
Qed.

(** With more passes allowed than characters left, the loop ends. *)
Lemma CreateMacro_loop_total fuel :
  forall macro w, (List.length (cin w) < fuel)%nat ->
  exists m' w', CreateMacro_loop fuel macro w = Some (m', w').
Proof.
  induction fuel as [|f IH]; intros macro w Hf; [lia|].
  cbn [CreateMacro_loop].
  destruct (CreateMacro_step macro w) as [[[] m1] w1] eqn:E.
  - eauto.
  - apply CreateMacro_step_reads in E. apply IH. lia.
Qed.

Lemma CreateMacro_passes_reads n :
  forall macro w m' w',
  CreateMacro_passes n macro w = Some (m', w') ->
  (n + List.length (cin w') <= List.length (cin w))%nat.
Proof.
  induction n as [|k IH]; intros macro w m' w'; cbn [CreateMacro_passes].
  - intros H; inversion H; subst. lia.
  - destruct (CreateMacro_step macro w) as [[[] m1] w1] eqn:E;
      [discriminate|].
    intros H. apply IH in H. apply CreateMacro_step_reads in E. lia.
Qed.

(** Passes that stay in the loop, then one that leaves it. *)
Lemma CreateMacro_loop_passes n :
  forall fuel macro w m' w' m'' w'',
  CreateMacro_passes n macro w = Some (m', w') ->
  CreateMacro_step m' w' = ((Break, m''), w'') ->
  (n < fuel)%nat ->
  CreateMacro_loop fuel macro w = Some (m'', w'').
Proof.
  induction n as [|k IH]; intros fuel macro w m' w' m'' w'';
    cbn [CreateMacro_passes].
  - intros H Hb Hf; inversion H; subst.
    destruct fuel as [|f]; [lia|]. cbn [CreateMacro_loop].
    rewrite Hb. reflexivity.
  - destruct (CreateMacro_step macro w) as [[[] m1] w1] eqn:E;
      [discriminate|].
    intros H Hb Hf. destruct fuel as [|f]; [lia|]. cbn [CreateMacro_loop].
    rewrite E. eapply IH; eauto. lia.
Qed.

Lemma CreateMacro_step_eof macro w :
  cin w = [] ->
  CreateMacro_step macro w
  = ((Break, macro),
     snd (print (lit "Add step (move/click/key/delay/done): ") w)).
Proof.
  destruct w as [cf mf ci co ce cl]. cbn [cin]. intros ->. reflexivity.
Qed.

Lemma CreateMacro_step_done macro w rest :
  fst (CreateMacro_step macro (set_cin (lit "done" ++ nl :: rest) w))
  = (Break, macro).
Proof. reflexivity. Qed.

(** What a pass leaves of the macro: the name, and possibly one action
    more. *)
Lemma CreateMacro_step_macro macro w :
  let m' := snd (fst (CreateMacro_step macro w)) in
  name m' = name macro
  /\ (actions m' = actions macro
      \/ exists act, actions m' = actions macro ++ [act]
                     /\ button_ok act).
Proof.
  assert (Same : name macro = name macro
                 /\ (actions macro = actions macro
                     \/ exists act, actions macro = actions macro ++ [act]
                                    /\ button_ok act))
    by (split; [reflexivity | left; reflexivity]).
  assert (Push : forall act, button_ok act ->
                 name (push_action macro act) = name macro
                 /\ (actions (push_action macro act) = actions macro
                     \/ exists act', actions (push_action macro act)
                                     = actions macro ++ [act']
                                     /\ button_ok act')).
  { intros act Hb. split; [reflexivity|]. right. exists act.
    split; [reflexivity | exact Hb]. }
  unfold CreateMacro_step, bind. cbn [print].
  set (w1 := mkWorld _ _ _ _ _ _). clearbody w1.
  destruct (cin_getline w1) as [[step|] w2]; [|exact Same].
  destruct (streq step (lit "done")); [exact Same|].
  destruct (streq step (lit "move")).
  { destruct (ReadIndex _ w2) as [dx w3]. destruct (ReadIndex _ w3) as [dy w4].
    destruct ((dx =? -1) || (dy =? -1)); [exact Same|].
    apply Push. intros H; discriminate H. }
  destruct (streq step (lit "click")).
  { destruct (ReadLine _ w2) as [button w3].
    apply Push. intros _. cbn [a].
    destruct (streq button (lit "right")); [right | left]; reflexivity. }
  destruct (streq step (lit "key")).
  { destruct (ReadIndex _ w2) as [vk w3].
    destruct (vk =? -1); [exact Same|].
    apply Push. intros H; discriminate H. }
  destruct (streq step (lit "delay")).
  { destruct (ReadIndex _ w2) as [ms w3].
    destruct (ms =? -1); [exact Same|].
    apply Push. intros H; discriminate H. }
  exact Same.
Qed.

Lemma CreateMacro_passes_name n :
  forall macro w m' w',
  CreateMacro_passes n macro w = Some (m', w') -> name m' = name macro.
Proof.
  induction n as [|k IH]; intros macro w m' w'; cbn [CreateMacro_passes].
  - intros H; inversion H; reflexivity.
  - pose proof (CreateMacro_step_macro macro w) as [Hn _].
    destruct (CreateMacro_step macro w) as [[[] m1] w1]; [discriminate|].
    cbn [fst snd] in Hn. intros H. apply IH in H. congruence.
Qed.

Lemma CreateMacro_loop_buttons fuel :
  forall macro w m' w',
  Forall button_ok (actions macro) ->
  CreateMacro_loop fuel macro w = Some (m', w') ->
  Forall button_ok (actions m').
Proof.
  induction fuel as [|f IH]; intros macro w m' w' Hok;
    cbn [CreateMacro_loop]; [discriminate|].
  pose proof (CreateMacro_step_macro macro w) as [_ Ha].
  destruct (CreateMacro_step macro w) as [[fl m1] w1]. cbn [fst snd] in Ha.
  assert (Hok1 : Forall button_ok (actions m1)).
  { destruct Ha as [-> | (act & -> & Hb)]; [exact Hok|].
    apply Forall_app; split; [exact Hok|].
    constructor; [exact Hb | constructor]. }
  destruct fl.
  - intros H; inversion H; subst. exact Hok1.
  - apply IH. exact Hok1.
Qed.

Lemma CreateMacro_step_done_at macro w rest :
  cin w = lit "done" ++ nl :: rest ->
  fst (CreateMacro_step macro w) = (Break, macro).
Proof.
  destruct w as [cf mf ci co ce cl]. cbn [cin]. intros ->. reflexivity.
Qed.

(** C9 (end of input during step entry).  After a non-empty name, let the
    loop of [CreateMacro] have made [n] passes that stayed in the loop and
    left the macro [m'].  If the input then is at its end, the next pass
    leaves the loop with [m'] unchanged, exactly as it does when the next
    line is [done], and in both cases [m'] (still under the entered name)
    is appended to the store. *)
Theorem CreateMacro_eof_like_done macros w nm w0 n m' w' :
  ReadLine (lit "Macro name: ") w = (nm, w0) ->
  nm <> [] ->
  CreateMacro_passes n (mkMacro nm []) w0 = Some (m', w') ->
  cin w' = [] \/ (exists rest, cin w' = lit "done" ++ nl :: rest) ->
  fst (CreateMacro_step m' w') = (Break, m')
  /\ fst (CreateMacro macros w) = macros ++ [m']
  /\ name m' = nm.
Proof.
  intros Hname Hnm Hpasses Hend.
  assert (Hbreak : fst (CreateMacro_step m' w') = (Break, m')).
  { destruct Hend as [E | [rest E]].
    - rewrite CreateMacro_step_eof by exact E. reflexivity.
    - eapply CreateMacro_step_done_at; exact E. }
  split; [exact Hbreak|]. split.
  - unfold CreateMacro. rewrite Hname.
    destruct nm as [|c nm']; [congruence|].
    destruct (CreateMacro_step m' w') as [[fl m2] w2] eqn:Es.
    cbn [fst] in Hbreak. inversion Hbreak; subst fl m2.
    pose proof (CreateMacro_passes_reads _ _ _ _ _ Hpasses) as Hn.
    rewrite (CreateMacro_loop_passes n _ _ _ _ _ _ _ Hpasses Es)
      by lia.
    reflexivity.
  - apply CreateMacro_passes_name in Hpasses. exact Hpasses.
Qed.

(* ===================================================================== *)
(** ** Button codes *)
(* ===================================================================== *)

Lemma step_action_button token iss act :
  step_action token iss = Some act -> button_ok act.
Proof.
  unfold step_action, parse_step, ex_bind, ex_ret, button_ok.
  destruct (streq token (lit "move")).
  { destruct (get_int iss) as [[dx r]|]; [|discriminate].
    destruct (get_int r) as [[dy r']|]; [|discriminate].
    cbn [option_map fst]. intros H; inversion H; subst.
    intros T; cbn in T; discriminate T. }
  destruct (streq token (lit "click")).
  { destruct (get_word iss) as [[button r]|]; [|discriminate].
    destruct (streq button (lit "right")); cbn [option_map fst];
      intros H; inversion H; subst; intros _; [right | left]; reflexivity. }
  destruct (streq token (lit "key")).
  { destruct (get_int iss) as [[vk r]|]; [|discriminate].
    cbn [option_map fst]. intros H; inversion H; subst.
    intros T; cbn in T; discriminate T. }
  destruct (streq token (lit "delay")).
  { destruct (get_int iss) as [[ms r]|]; [|discriminate].
    cbn [option_map fst]. intros H; inversion H; subst.
    intros T; cbn in T; discriminate T. }
  discriminate.
Qed.

Lemma LoadMacros_line_buttons st line :
  store_ok (st_macros st) /\ Forall button_ok (actions (st_current st)) ->
  store_ok (st_macros (LoadMacros_line st line))
  /\ Forall button_ok (actions (st_current (LoadMacros_line st line))).
Proof.
  intros [Hm Hc]. unfold LoadMacros_line.
  assert (Hpush : store_ok (st_macros st ++ [st_current st])).
  { apply Forall_app; split; [exact Hm|].
    constructor; [exact Hc | constructor]. }
  destruct line as [|c line]; [split; assumption|].
  destruct (first_token (c :: line)) as [token iss].
  destruct (streq token (lit "macro")).
  { destruct (st_in_macro st); cbn [st_macros st_current actions].
    - split; [exact Hpush | constructor].
    - split; assumption. }
  destruct (streq token (lit "end")).
  { destruct (st_in_macro st); cbn [st_macros st_current actions].
    - split; [exact Hpush | constructor].
    - split; assumption. }
  destruct (st_in_macro st); [|split; assumption].
  destruct (step_action token iss) as [act|] eqn:E; [|split; assumption].
  cbn [st_macros st_current actions push_action]. split; [exact Hm|].
  apply Forall_app; split; [exact Hc|].
  constructor; [eapply step_action_button; exact E | constructor].
Qed.

Lemma LoadMacros_buttons w : store_ok (LoadMacros w).
Proof.
  unfold LoadMacros. destruct (content (macros_txt w)) as [text|];
    [|constructor].
  unfold LoadMacros_lines.
  assert (H : forall lines st,
             store_ok (st_macros st)
             /\ Forall button_ok (actions (st_current st)) ->
             store_ok (LoadMacros_finish (fold_left LoadMacros_line lines st))).
  { induction lines as [|l lines IH]; intros st Hst; cbn [fold_left].
    - destruct Hst as [Hm Hc]. unfold LoadMacros_finish.
      destruct (st_in_macro st); [|exact Hm].
      apply Forall_app; split; [exact Hm|].
      constructor; [exact Hc | constructor].
    - apply IH, LoadMacros_line_buttons, Hst. }
  apply H. split; constructor.
Qed.

Lemma CreateMacro_buttons macros w :
  store_ok macros -> store_ok (fst (CreateMacro macros w)).
Proof.
  intros Hok. unfold CreateMacro.
  destruct (ReadLine _ w) as [n w1].
  destruct n as [|c n]; [exact Hok|].
  destruct (CreateMacro_loop _ _ w1) as [[macro w2]|] eqn:E; [|exact Hok].
  cbn [fst bind print ret]. apply Forall_app; split; [exact Hok|].
  constructor; [|constructor].
  eapply CreateMacro_loop_buttons; [|exact E]. constructor.
Qed.

Lemma span_word_word button tail :
  Forall (fun c => isspace c = false) button -> word_end tail ->
  span_word (button ++ tail) = (button, tail).
Proof.
  intros Hb Ht. induction Hb as [|c button Hc _ IH]; cbn [app span_word].
  - destruct tail as [|c t]; [reflexivity|].
    cbn [word_end] in Ht. cbn [span_word]. rewrite Ht. reflexivity.
  - rewrite Hc, IH. reflexivity.
Qed.

Lemma get_word_word button tail :
  is_word button -> word_end tail ->
  get_word (" "%char :: button ++ tail) = Some (button, tail).
Proof.
  intros [Hne Hb] Ht. unfold get_word.
  change (skipws (" "%char :: button ++ tail)) with (skipws (button ++ tail)).
  destruct button as [|c button]; [congruence|].
  inversion Hb as [|? ? Hc Hb']; subst.
  cbn [app skipws]. rewrite Hc.
  change (c :: button ++ tail) with ((c :: button) ++ tail).
  rewrite span_word_word by assumption. reflexivity.
Qed.

(** A [click] line takes the code from its button word: 1 for [right],
    0 for every other word. *)
Lemma click_line_action button tail :
  is_word button -> word_end tail ->
  line_action (lit "click " ++ button ++ tail)
  = Some (mkAction Click (if streq button (lit "right") then 1 else 0) 0).
Proof.
  intros Hb Ht. unfold line_action.
  change (first_token (lit "click " ++ button ++ tail))
    with (lit "click", " "%char :: button ++ tail).
  cbn [fst snd]. unfold step_action.
  change (parse_step (lit "click"))
    with (ex_bind get_word (fun button =>
            ex_ret (mkAction Click
                      (if streq button (lit "right") then 1 else 0) 0))).
  unfold ex_bind. rewrite get_word_word by assumption. reflexivity.
Qed.

(** The [click] step of [CreateMacro] takes the code from the answer to
    its prompt in the same way. *)
Lemma CreateMacro_step_click macro w answer rest :
  no_nl answer ->
  cin w = lit "click" ++ nl :: answer ++ nl :: rest ->
  fst (CreateMacro_step macro w)
  = (Continue,
     push_action macro
       (mkAction Click (if streq answer (lit "right") then 1 else 0) 0)).
Proof.
  destruct w as [cf mf ci co ce cl]. cbn [cin]. intros Hn ->.
  unfold CreateMacro_step. unfold bind at 1. cbn [print].
  unfold bind at 1. unfold cin_getline at 1. cbn [cin].
  change (getline (lit "click" ++ nl :: answer ++ nl :: rest))
    with (Some (lit "click", answer ++ nl :: rest)).
  cbv iota beta.
  change (streq (lit "click") (lit "done")) with false.
  change (streq (lit "click") (lit "move")) with false.
  change (streq (lit "click") (lit "click")) with true.
  cbv iota.
  unfold bind, ReadLine, bind, cin_getline, set_cin. cbn [print cin].
  unfold getline.
  destruct (answer ++ nl :: rest) eqn:E; [destruct answer; discriminate|].
  rewrite <- E, read_line_app by exact Hn. reflexivity.
Qed.

(** C10 (button codes).  Every [Click] in a store that [LoadMacros]
    returns, or that [CreateMacro] returns for a store with this property,
    has the code 0 or 1; its line is written as [click right] for 1 and
    [click left] for 0, and decoding that line gives the same code back.
    The code is 1 exactly for the word [right]: a [click] line of the file
    decodes to code 1 when its button word is [right] and to code 0 for
    every other word, and the [click] step of [CreateMacro] stores 1 when
    the answer to its prompt is [right] and 0 for every other answer. *)
Theorem click_codes_left_or_right macros w m act :
  store_ok macros ->
  In m (LoadMacros w) \/ In m (fst (CreateMacro macros w)) ->
  In act (actions m) ->
  type act = Click ->
  ((a act = 0 \/ a act = 1)
   /\ SaveMacros_action act
      = lit "click " ++ (if a act =? 1 then lit "right" else lit "left")
        ++ [nl]
   /\ line_action (action_line act) = Some (mkAction Click (a act) 0))
  /\ (forall button tail,
        is_word button -> word_end tail ->
        line_action (lit "click " ++ button ++ tail)
        = Some (mkAction Click
                  (if streq button (lit "right") then 1 else 0) 0))
  /\ (forall macro w1 answer rest,
        no_nl answer ->
        cin w1 = lit "click" ++ nl :: answer ++ nl :: rest ->
        fst (CreateMacro_step macro w1)
        = (Continue,
           push_action macro
             (mkAction Click
                (if streq answer (lit "right") then 1 else 0) 0))).
Proof.
  intros Hok Hm Hact Hty.
  split; [|split; [exact click_line_action | exact CreateMacro_step_click]].
  assert (Hs : Forall button_ok (actions m)).
  { destruct Hm as [Hm | Hm].
    - pose proof (LoadMacros_buttons w) as H.
      unfold store_ok in H. rewrite Forall_forall in H. apply H, Hm.
    - pose proof (CreateMacro_buttons macros w Hok) as H.
      unfold store_ok in H. rewrite Forall_forall in H. apply H, Hm. }
  rewrite Forall_forall in Hs. specialize (Hs act Hact Hty).
  split; [exact Hs|].
  destruct act as [ty x y]. cbn [type a] in *. subst ty.
  unfold SaveMacros_action, action_line, line_action. cbn [type a].
  split; [reflexivity|].
  destruct Hs as [-> | ->]; reflexivity.
Qed.

(* ===================================================================== *)
(** ** Worked instances *)
(* ===================================================================== *)

(** The scenario of the specification: one macro with two key presses, and
    the three-line block it is saved as. *)
Example LoadMacros_Greet :
  LoadMacros (with_macros_txt
                (unlines [lit "macro Greet"; lit "key 72"; lit "key 73";
                          lit "end"]) blank_world)
  = [mkMacro (lit "Greet") [mkAction Key 72 0; mkAction Key 73 0]]
  /\ SaveMacros_text
       [mkMacro (lit "Greet") [mkAction Key 72 0; mkAction Key 73 0]]
     = unlines [lit "macro Greet"; lit "key 72"; lit "key 73"; lit "end"].
Proof. split; reflexivity. Qed.

Ltac in_int_tac := unfold in_int, INT_MIN, INT_MAX; lia.

Ltac wf_action_tac :=
  unfold wf_action; cbn [type a b]; repeat split;
  first [ in_int_tac | reflexivity | left; reflexivity | right; reflexivity ].

Ltac wf_actions_tac :=
  repeat first [ apply Forall_nil | apply Forall_cons; [wf_action_tac|] ].

Ltac wf_macro_tac :=
  unfold wf_macro; cbn [name actions];
  split; [discriminate | split; [apply no_nl_lit_check; reflexivity
                                | wf_actions_tac]].

Lemma SaveMacros_LoadMacros_witness :
  Forall wf_macro sample_store
  /\ LoadMacros (snd (SaveMacros sample_store blank_world)) = sample_store.
Proof.
  assert (H : Forall wf_macro sample_store).
  { unfold sample_store.
    repeat first [ apply Forall_nil | apply Forall_cons; [wf_macro_tac|] ]. }
  split; [exact H|].
  apply (SaveMacros_LoadMacros sample_store blank_world H). reflexivity.
Defined.

Lemma LoadMacros_drops_bad_move_witness :
  move_args_fail (snd (first_token (lit "move 1x 2")))
  /\ LoadMacros (with_macros_txt mixed_block_file blank_world)
     = [mkMacro (lit "M") [mkAction Key 1 0; mkAction Delay 5 0];
        mkMacro (lit "N") []].
Proof.
  assert (F : move_args_fail (snd (first_token (lit "move 1x 2"))))
    by reflexivity.
  split; [exact F|].
  apply (LoadMacros_drops_bad_move
           (with_macros_txt mixed_block_file blank_world) mixed_block_file
           [] (lit "macro M") [lit "key 1 junk"; lit "bogus"]
           (lit "move 1x 2") [lit "  delay +5"] [lit "macro N"]).
  - reflexivity.
  - reflexivity.
  - reflexivity.
  - repeat constructor.
  - repeat constructor.
  - reflexivity.
  - reflexivity.
Defined.

Lemma LoadConfig_parse_failure_witness :
  stoi (lit "abc") = Thrown invalid_argument
  /\ LoadConfig (with_config_txt bad_value_file blank_world) = mkConfig 50
  /\ LoadConfig blank_world = mkConfig 50.
Proof.
  split; [reflexivity|].
  apply (LoadConfig_parse_failure
           (with_config_txt bad_value_file blank_world) bad_value_file
           [lit "default_delay_ms=12"] (lit "abc") invalid_argument
           (mkConfig 7) blank_world); reflexivity.
Defined.

Lemma LoadMacros_eof_closes_block_witness :
  LoadMacros (with_macros_txt unclosed_file blank_world)
  = [mkMacro (lit "A") [mkAction Key 1 0];
     mkMacro (lit "B") [mkAction Move 1 2; mkAction Key 9 0]].
Proof.
  apply (LoadMacros_eof_closes_block
           (with_macros_txt unclosed_file blank_world) unclosed_file
           [lit "macro A"; lit "key 1"; lit "end"] (lit "macro B")
           [lit "move 1 2"; lit "key 9"]).
  - reflexivity.
  - reflexivity.
  - reflexivity.
  - repeat constructor.
Defined.

Lemma LoadMacros_header_closes_block_witness :
  LoadMacros (with_macros_txt reopened_file blank_world)
  = [mkMacro (lit "A") [mkAction Key 1 0];
     mkMacro (lit "B") [mkAction Key 2 0]].
Proof.
  apply (LoadMacros_header_closes_block
           (with_macros_txt reopened_file blank_world) reopened_file
           [] (lit "macro A") [lit "key 1"] (lit "macro B")
           [lit "key 2"; lit "end"]).
  - reflexivity.
  - reflexivity.
  - reflexivity.
  - repeat constructor.
  - reflexivity.
Defined.

(** Deleting position 1 of [A; B; C] leaves [B; C]; position 4 is not a
    position and leaves the store as it is. *)
Lemma main_delete_spec_witness :
  fst (main_delete abc_store (typed [lit "1"]))
  = [mkMacro (lit "B") []; mkMacro (lit "C") []]
  /\ fst (main_delete abc_store (typed [lit "4"])) = abc_store.
Proof.
  split.
  - destruct (main_delete_spec abc_store (typed [lit "1"]) 1 _
                ltac:(unfold INT_MAX; cbn; lia) eq_refl) as [H _].
    destruct (H ltac:(cbn; lia)) as (before & m & after & E1 & E2 & E3).
    rewrite E3. cbn [fst].
    destruct before as [|x before]; [|cbn in E2; lia].
    cbn [app] in *. injection E1 as _ E1. symmetry. exact E1.
  - destruct (main_delete_spec abc_store (typed [lit "4"]) 4 _
                ltac:(unfold INT_MAX; cbn; lia) eq_refl) as [_ H].
    rewrite (H ltac:(cbn; lia)). reflexivity.
Defined.

(** A name, one key step, then the end of the input. *)
Lemma CreateMacro_eof_like_done_witness :
  fst (CreateMacro [] (typed [lit "nm"; lit "key"; lit "65"]))
  = [mkMacro (lit "nm") [mkAction Key 65 0]].
Proof.
  refine (proj1 (proj2
    (CreateMacro_eof_like_done [] (typed [lit "nm"; lit "key"; lit "65"])
       (lit "nm") _ 1 (mkMacro (lit "nm") [mkAction Key 65 0]) _
       eq_refl _ eq_refl (or_introl eq_refl)))).
  discriminate.
Defined.

Lemma click_codes_left_or_right_witness :
  LoadMacros (with_macros_txt clicks_file blank_world)
  = [mkMacro (lit "M") [mkAction Click 0 0; mkAction Click 1 0]]
  /\ SaveMacros_action (mkAction Click 0 0) = lit "click left" ++ [nl]
  /\ line_action (lit "click left") = Some (mkAction Click 0 0)
  /\ line_action (lit "click right now") = Some (mkAction Click 1 0)
  /\ line_action (lit "click Right") = Some (mkAction Click 0 0)
  /\ fst (CreateMacro_step empty_macro (typed [lit "click"; lit "right"]))
     = (Continue, mkMacro [] [mkAction Click 1 0])
  /\ fst (CreateMacro_step empty_macro (typed [lit "click"; lit "middle"]))
     = (Continue, mkMacro [] [mkAction Click 0 0]).
Proof.
  split; [reflexivity|].
  pose proof
    (click_codes_left_or_right [] (with_macros_txt clicks_file blank_world)
       (mkMacro (lit "M") [mkAction Click 0 0; mkAction Click 1 0])
       (mkAction Click 0 0)
       (Forall_nil _) (or_introl (or_introl eq_refl)) (or_introl eq_refl)
       eq_refl) as ((_ & H1 & H2) & H3 & H4).
  split; [exact H1|]. split; [exact H2|].
  split.
  { apply (H3 (lit "right") (lit " now")).
    - split; [discriminate | repeat constructor].
    - reflexivity. }
  split.
  { apply (H3 (lit "Right") []).
    - split; [discriminate | repeat constructor].
    - exact I. }
  split.
  - apply (H4 empty_macro (typed [lit "click"; lit "right"]) (lit "right") []);
      [apply no_nl_lit_check|]; reflexivity.
  - apply (H4 empty_macro (typed [lit "click"; lit "middle"]) (lit "middle")
             []); [apply no_nl_lit_check|]; reflexivity.
Defined.

(* ===================================================================== *)
(** ** Further facts about the program *)
(* ===================================================================== *)


(** The loop of [CreateMacro] always ends within the passes it is given. *)
Lemma CreateMacro_loop_enough macro w :
  exists m' w',
    CreateMacro_loop (S (List.length (cin w))) macro w = Some (m', w').
Proof. apply CreateMacro_loop_total. lia. Qed.

(** An argument that starts with neither a digit nor a sign is no
    integer. *)
Lemma get_int_no_numeral s c r :
  skipws s = c :: r ->
  isdigit c = false -> Ascii.eqb c "-" = false -> Ascii.eqb c "+" = false ->
  get_int s = None.
Proof.
  intros Hs Hd Hm Hp. unfold get_int, scan_int. rewrite Hs.
  cbn [scan_sign]. rewrite Hm, Hp, Hd. reflexivity.
Qed.

(** A [move] line is dropped when its first argument is no integer, and
    when a written integer is followed by an argument that is none. *)
Lemma move_args_fail_first args c r :
  skipws args = c :: r ->
  isdigit c = false -> Ascii.eqb c "-" = false -> Ascii.eqb c "+" = false ->
  move_args_fail args.
Proof.
  intros Hs Hd Hm Hp. unfold move_args_fail.
  rewrite (get_int_no_numeral args c r) by assumption. exact I.
Qed.

Lemma move_args_fail_second dx rest c r :
  in_int dx ->
  skipws rest = c :: r ->
  isdigit c = false -> Ascii.eqb c "-" = false -> Ascii.eqb c "+" = false ->
  move_args_fail (put_int dx ++ " "%char :: rest).
Proof.
  intros Hdx Hs Hd Hm Hp. unfold move_args_fail, get_int at 1.
  rewrite scan_int_put_int by (auto; reflexivity).
  apply (get_int_no_numeral (" "%char :: rest) c r); auto.
Qed.

(** At the end of the input the menu loop goes on for ever: every pass
    reads -1, reports an unknown option and stays in the loop. *)
Lemma main_pass_eof config macros w :
  cin w = [] ->
  exists w', main_pass config macros w = ((Continue, (config, macros)), w')
             /\ cin w' = [].
Proof.
  destruct w as [cf mf ci co ce cl]. cbn [cin]. intros ->.
  exists (snd (main_pass config macros (mkWorld cf mf [] co ce cl))).
  split; vm_compute; reflexivity.
Qed.

Lemma main_loop_eof fuel :
  forall config macros w, cin w = [] -> main_loop fuel config macros w = None.
Proof.
  induction fuel as [|f IH]; intros config macros w H; [reflexivity|].
  cbn [main_loop].
  destruct (main_pass_eof config macros w H) as (w' & -> & H').
  apply IH. exact H'.
Qed.

(* ===================================================================== *)
(** ** Further properties: the configuration file *)
(* ===================================================================== *)

Lemma stoi_put_int v : in_int v -> stoi (put_int v) = Returned v.
Proof.
  intros H. unfold stoi. rewrite <- (app_nil_r (put_int v)).
  rewrite scan_int_put_int by (auto; exact I). reflexivity.
Qed.

Lemma stoi_in_int s v : stoi s = Returned v -> in_int v.
Proof.
  unfold stoi. destruct (scan_int s) as [| |v' r] eqn:E; try discriminate.
  intros H; inversion H; subst. eapply scan_int_range; exact E.
Qed.

Lemma LoadConfig_line_other config line :
  assigns_delay line = false -> LoadConfig_line config line = config.
Proof.
  unfold assigns_delay, LoadConfig_line.
  destruct (find_eq line) as [pos|]; [|reflexivity].
  intros ->. reflexivity.
Qed.

Lemma LoadConfig_line_assigns config config' line :
  assigns_delay line = true ->
  LoadConfig_line config line = LoadConfig_line config' line.
Proof.
  unfold assigns_delay, LoadConfig_line.
  destruct (find_eq line) as [pos|]; [|discriminate].
  intros ->. reflexivity.
Qed.

Lemma fold_LoadConfig_line_other lines :
  Forall (fun l => assigns_delay l = false) lines ->
  forall config, fold_left LoadConfig_line lines config = config.
Proof.
  induction 1 as [|l lines Hl _ IH]; intros config; cbn [fold_left].
  - reflexivity.
  - rewrite LoadConfig_line_other by exact Hl. apply IH.
Qed.

Lemma LoadConfig_line_in_int config line :
  in_int (default_delay_ms config) ->
  in_int (default_delay_ms (LoadConfig_line config line)).
Proof.
  intros H. unfold LoadConfig_line.
  destruct (find_eq line) as [pos|]; [|exact H].
  destruct (streq _ _); [|exact H].
  destruct (stoi _) as [v|e] eqn:E; cbn [default_delay_ms].
  - eapply stoi_in_int; exact E.
  - unfold in_int, INT_MIN, INT_MAX. lia.
Qed.

(** What [LoadConfig] returns can always be written and read back. *)
Lemma LoadConfig_in_int w : in_int (default_delay_ms (LoadConfig w)).
Proof.
  assert (D : in_int (default_delay_ms default_config))
    by (unfold in_int, INT_MIN, INT_MAX; cbn; lia).
  unfold LoadConfig. destruct (content (config_txt w)) as [text|]; [|exact D].
  generalize default_config D. induction (getlines text) as [|l ls IH];
    intros c Hc; cbn [fold_left]; [exact Hc|].
  apply IH, LoadConfig_line_in_int, Hc.
Qed.

Lemma LoadConfig_saved config text :
  in_int (default_delay_ms config) ->
  text = SaveConfig_text config ->
  fold_left LoadConfig_line (getlines text) default_config = config.
Proof.
  intros H ->. unfold SaveConfig_text.
  replace (lit "default_delay_ms=" ++ put_int (default_delay_ms config) ++ [nl])
    with ((lit "default_delay_ms=" ++ put_int (default_delay_ms config))
          ++ nl :: [])
    by (rewrite <- app_assoc; reflexivity).
  rewrite getlines_cons_line.
  - cbn [getlines fold_left]. rewrite LoadConfig_line_delay.
    rewrite stoi_put_int by exact H. destruct config; reflexivity.
  - apply no_nl_app; [apply no_nl_lit_check; reflexivity|].
    apply put_int_no_nl, H.
Qed.

(** X1 (configuration round trip).  Saving a configuration whose delay is
    an [int] (negative ones included) to a writable file and loading it
    again gives the same configuration. *)
Theorem SaveConfig_LoadConfig config w :
  in_int (default_delay_ms config) ->
  writable (config_txt w) = true ->
  LoadConfig (snd (SaveConfig config w)) = config.
Proof.
  intros H Hw. unfold SaveConfig. rewrite Hw.
  unfold write_config_txt, LoadConfig. cbn [snd config_txt content].
  apply LoadConfig_saved; [exact H | reflexivity].
Qed.

(** X2 (the last assignment wins).  Only the lines whose text before the
    first [=] is exactly [default_delay_ms] matter, and of these only the
    last: the loaded configuration is what that line alone gives. *)
Theorem LoadConfig_last_assignment w text pre line post :
  content (config_txt w) = Some text ->
  getlines text = pre ++ line :: post ->
  assigns_delay line = true ->
  Forall (fun l => assigns_delay l = false) post ->
  LoadConfig w = LoadConfig_line default_config line.
Proof.
  intros Hc Hl Ha Hp. unfold LoadConfig. rewrite Hc, Hl.
  rewrite fold_left_app. cbn [fold_left].
  rewrite fold_LoadConfig_line_other by exact Hp.
  apply LoadConfig_line_assigns. exact Ha.
Qed.

(** X3 (no assignment, no change).  A configuration file without any line
    that assigns [default_delay_ms] loads as the default of 50. *)
Theorem LoadConfig_no_assignment w text :
  content (config_txt w) = Some text ->
  Forall (fun l => assigns_delay l = false) (getlines text) ->
  LoadConfig w = mkConfig 50.
Proof.
  intros Hc Hl. unfold LoadConfig. rewrite Hc.
  apply fold_LoadConfig_line_other. exact Hl.
Qed.

(* ===================================================================== *)
(** ** Further properties: the macro file *)
(* ===================================================================== *)

Lemma fst_read_line_no_nl s : no_nl (fst (read_line s)).
Proof.
  induction s as [|c s IH]; cbn [read_line]; [constructor|].
  destruct (is_nl c) eqn:E; [constructor|].
  destruct (read_line s) as [l t]. cbn [fst] in *.
  constructor; assumption.
Qed.

Lemma header_name_no_nl old iss : no_nl old -> no_nl (header_name old iss).
Proof.
  intros Ho. unfold header_name.
  assert (H : no_nl match getline iss with
                    | Some (l, _) => l
                    | None => old
                    end).
  { unfold getline. destruct iss as [|c iss]; [exact Ho|].
    pose proof (fst_read_line_no_nl (c :: iss)) as H.
    destruct (read_line (c :: iss)) as [l t]. exact H. }
  destruct (match getline iss with Some (l, _) => l | None => old end)
    as [|c r]; [exact H|].
  destruct (Ascii.eqb c " "); [inversion H; assumption | exact H].
Qed.

Lemma get_int_in_int s v r : get_int s = Some (v, r) -> in_int v.
Proof.
  unfold get_int. destruct (scan_int s) as [| |v' r'] eqn:E; try discriminate.
  intros H; inversion H; subst. eapply scan_int_range; exact E.
Qed.

Lemma in_int_small v : -1 <= v <= 1 -> in_int v.
Proof. unfold in_int, INT_MIN, INT_MAX. lia. Qed.

(** Every action the decoder builds is well-formed. *)
Lemma step_action_wf token iss act :
  step_action token iss = Some act -> wf_action act.
Proof.
  assert (Z0 : in_int 0) by (apply in_int_small; lia).
  assert (Z1 : in_int 1) by (apply in_int_small; lia).
  unfold step_action, parse_step, ex_bind, ex_ret, wf_action.
  destruct (streq token (lit "move")).
  { destruct (get_int iss) as [[dx r]|] eqn:E1; [|discriminate].
    destruct (get_int r) as [[dy r']|] eqn:E2; [|discriminate].
    cbn [option_map fst]. intros H; inversion H; subst. cbn [type a b].
    split; [eapply get_int_in_int; exact E1|].
    split; [eapply get_int_in_int; exact E2 | exact I]. }
  destruct (streq token (lit "click")).
  { destruct (get_word iss) as [[button r]|]; [|discriminate].
    destruct (streq button (lit "right")); cbn [option_map fst];
      intros H; inversion H; subst; cbn [type a b].
    - split; [exact Z1|]. split; [exact Z0|].
      split; [right; reflexivity | reflexivity].
    - split; [exact Z0|]. split; [exact Z0|].
      split; [left; reflexivity | reflexivity]. }
  destruct (streq token (lit "key")).
  { destruct (get_int iss) as [[vk r]|] eqn:E1; [|discriminate].
    cbn [option_map fst]. intros H; inversion H; subst. cbn [type a b].
    split; [eapply get_int_in_int; exact E1|].
    split; [exact Z0 | reflexivity]. }
  destruct (streq token (lit "delay")).
  { destruct (get_int iss) as [[ms r]|] eqn:E1; [|discriminate].
    cbn [option_map fst]. intros H; inversion H; subst. cbn [type a b].
    split; [eapply get_int_in_int; exact E1|].
    split; [exact Z0 | reflexivity]. }
  discriminate.
Qed.

Lemma saveable_snoc macros m :
  saveable macros -> no_nl (name m) -> Forall wf_action (actions m) ->
  saveable (macros ++ [m]).
Proof.
  intros Hs Hn Ha. apply Forall_app; split; [exact Hs|].
  constructor; [split; assumption | constructor].
Qed.

Lemma LoadMacros_line_saveable st line :
  saveable (st_macros st) /\ no_nl (name (st_current st))
  /\ Forall wf_action (actions (st_current st)) ->
  saveable (st_macros (LoadMacros_line st line))
  /\ no_nl (name (st_current (LoadMacros_line st line)))
  /\ Forall wf_action (actions (st_current (LoadMacros_line st line))).
Proof.
  intros (Hm & Hn & Ha). unfold LoadMacros_line.
  pose proof (saveable_snoc _ _ Hm Hn Ha) as Hpush.
  destruct line as [|c line]; [auto|].
  destruct (first_token (c :: line)) as [token iss].
  destruct (streq token (lit "macro")).
  { destruct (st_in_macro st); cbn [st_macros st_current name actions].
    - repeat split; [exact Hpush | | constructor].
      apply header_name_no_nl. constructor.
    - repeat split; [exact Hm | | exact Ha].
      apply header_name_no_nl. exact Hn. }
  destruct (streq token (lit "end")).
  { destruct (st_in_macro st); cbn [st_macros st_current name actions].
    - repeat split; [exact Hpush | constructor | constructor].
    - auto. }
  destruct (st_in_macro st); [|auto].
  destruct (step_action token iss) as [act|] eqn:E; [|auto].
  cbn [st_macros st_current name actions push_action].
  repeat split; [exact Hm | exact Hn |].
  apply Forall_app; split; [exact Ha|].
  constructor; [eapply step_action_wf; exact E | constructor].
Qed.

Lemma LoadMacros_lines_saveable lines : saveable (LoadMacros_lines lines).
Proof.
  unfold LoadMacros_lines.
  assert (H : forall st,
             saveable (st_macros st) /\ no_nl (name (st_current st))
             /\ Forall wf_action (actions (st_current st)) ->
             saveable (LoadMacros_finish (fold_left LoadMacros_line lines st))).
  { induction lines as [|l lines IH]; intros st Hst; cbn [fold_left].
    - destruct Hst as (Hm & Hn & Ha). unfold LoadMacros_finish.
      destruct (st_in_macro st); [|exact Hm].
      apply saveable_snoc; assumption.
    - apply IH, LoadMacros_line_saveable, Hst. }
  apply H. repeat split; constructor.
Qed.

Lemma LoadMacros_saveable w : saveable (LoadMacros w).
Proof.
  unfold LoadMacros. destruct (content (macros_txt w));
    [apply LoadMacros_lines_saveable | constructor].
Qed.

(** A saveable store comes back from the file it is written to. *)
Lemma saveable_round_trip macros w :
  saveable macros ->
  writable (macros_txt w) = true ->
  LoadMacros (snd (SaveMacros macros w)) = macros.
Proof.
  intros Hs Hw. unfold SaveMacros. rewrite Hw.
  unfold write_macros_txt, LoadMacros. cbn [snd macros_txt content].
  rewrite SaveMacros_text_lines, getlines_unlines.
  - apply LoadMacros_lines_encoded. exact Hs.
  - apply Forall_flat_map.
    eapply Forall_impl; [|exact Hs]. intros m [Hn Ha].
    apply no_nl_macro_lines; assumption.
Qed.

(** X4 (decoding normalises).  Whatever the macro file holds, writing the
    decoded store to a writable file and decoding that file gives the same
    store again: what survives one load survives every save and load. *)
Theorem LoadMacros_SaveMacros_LoadMacros w w' :
  writable (macros_txt w') = true ->
  LoadMacros (snd (SaveMacros (LoadMacros w) w')) = LoadMacros w.
Proof.
  intros Hw. apply saveable_round_trip; [apply LoadMacros_saveable | exact Hw].
Qed.

Lemma LoadMacros_line_names st line :
  is_headerb line = false ->
  map name (LoadMacros_finish (LoadMacros_line st line))
  = map name (LoadMacros_finish st).
Proof.
  unfold is_headerb, token_of, LoadMacros_line, LoadMacros_finish.
  destruct line as [|c line]; [reflexivity|].
  destruct (first_token (c :: line)) as [token iss]. cbn [fst].
  intros ->.
  destruct (streq token (lit "end")).
  { destruct (st_in_macro st) eqn:E; cbn [st_in_macro st_macros];
      [reflexivity | rewrite E; reflexivity]. }
  destruct (st_in_macro st) eqn:E; [|rewrite E; reflexivity].
  destruct (step_action token iss); cbn [st_in_macro st_macros st_current];
    [|rewrite E; reflexivity].
  rewrite !map_app. reflexivity.
Qed.

Lemma fold_names lines :
  forall st, load_inv st ->
  map name (LoadMacros_finish (fold_left LoadMacros_line lines st))
  = map name (LoadMacros_finish st) ++ header_names lines.
Proof.
  induction lines as [|l lines IH]; intros st Hst; cbn [fold_left].
  - unfold header_names. cbn. rewrite app_nil_r. reflexivity.
  - rewrite IH by (apply LoadMacros_line_inv; exact Hst).
    unfold header_names. cbn [filter].
    destruct (is_headerb l) eqn:E.
    + rewrite (LoadMacros_line_header st l Hst E).
      unfold LoadMacros_finish at 1. cbn [st_in_macro st_macros st_current].
      rewrite map_app, <- app_assoc. reflexivity.
    + rewrite LoadMacros_line_names by exact E. reflexivity.
Qed.

(** X5 (one macro per header line).  The decoded store has exactly one
    macro for every line whose first word is [macro], in the order of
    these lines and under the names they give, whatever else the file
    holds and whether or not blocks are closed. *)
Theorem LoadMacros_names w text :
  content (macros_txt w) = Some text ->
  map name (LoadMacros w) = header_names (getlines text)
  /\ List.length (LoadMacros w)
     = List.length (filter is_headerb (getlines text)).
Proof.
  intros Hc. unfold LoadMacros. rewrite Hc.
  assert (E : map name (LoadMacros_lines (getlines text))
              = header_names (getlines text)).
  { unfold LoadMacros_lines.
    rewrite fold_names by apply load_inv_init. reflexivity. }
  split; [exact E|].
  apply (f_equal (@List.length str)) in E.
  unfold header_names in E. rewrite !length_map in E. exact E.
Qed.

Lemma LoadMacros_line_outside ms line :
  is_headerb line = false ->
  LoadMacros_line (mkLoad ms empty_macro false) line
  = mkLoad ms empty_macro false.
Proof.
  unfold is_headerb, token_of, LoadMacros_line.
  destruct line as [|c line]; [reflexivity|].
  destruct (first_token (c :: line)) as [token iss]. cbn [fst].
  intros ->. destruct (streq token (lit "end")); reflexivity.
Qed.

Lemma fold_outside ms mid :
  Forall (fun l => is_headerb l = false) mid ->
  fold_left LoadMacros_line mid (mkLoad ms empty_macro false)
  = mkLoad ms empty_macro false.
Proof.
  induction 1 as [|l mid Hl _ IH]; cbn [fold_left]; [reflexivity|].
  rewrite LoadMacros_line_outside by exact Hl. exact IH.
Qed.

Lemma LoadMacros_line_end_closes st e :
  streq (token_of e) (lit "end") = true ->
  st_in_macro (LoadMacros_line st e) = false.
Proof.
  unfold token_of, LoadMacros_line.
  destruct e as [|c e]; [discriminate|].
  destruct (first_token (c :: e)) as [token iss]. cbn [fst].
  intros H. apply streq_eq in H. subst token.
  cbn. destruct (st_in_macro st) eqn:E; [reflexivity | exact E].
Qed.

Lemma at_block_end_closed pre :
  at_block_end pre ->
  exists ms, fold_left LoadMacros_line pre load_init
             = mkLoad ms empty_macro false.
Proof.
  intros H.
  assert (C : st_in_macro (fold_left LoadMacros_line pre load_init) = false).
  { destruct H as [-> | (pre0 & e & -> & He)]; [reflexivity|].
    rewrite fold_left_app. cbn [fold_left].
    apply LoadMacros_line_end_closes, He. }
  pose proof (fold_load_inv pre load_init load_inv_init) as Hinv.
  destruct (fold_left LoadMacros_line pre load_init) as [ms cur inm].
  cbn [st_in_macro] in C. subst inm. specialize (Hinv eq_refl).
  cbn [st_current] in Hinv. subst cur. exists ms. reflexivity.
Qed.

(** X6 (lines outside blocks are ignored).  Lines at the start of the
    file or after an [end] line, up to the next header line, change
    nothing: the file decodes as it does without them. *)
Theorem LoadMacros_ignores_outside_blocks w1 w2 t1 t2 pre mid rest :
  content (macros_txt w1) = Some t1 ->
  content (macros_txt w2) = Some t2 ->
  getlines t1 = pre ++ mid ++ rest ->
  getlines t2 = pre ++ rest ->
  at_block_end pre ->
  Forall (fun l => is_headerb l = false) mid ->
  LoadMacros w1 = LoadMacros w2.
Proof.
  intros H1 H2 L1 L2 Hpre Hmid. unfold LoadMacros.
  rewrite H1, H2, L1, L2. unfold LoadMacros_lines.
  rewrite !fold_left_app.
  destruct (at_block_end_closed pre Hpre) as [ms ->].
  rewrite fold_outside by exact Hmid. reflexivity.
Qed.

Lemma skipws_spaces ws s :
  Forall (fun c => isspace c = true) ws -> skipws (ws ++ s) = skipws s.
Proof.
  induction 1 as [|c ws Hc _ IH]; [reflexivity|].
  cbn [app skipws]. rewrite Hc. exact IH.
Qed.

Lemma LoadMacros_line_blank st ws :
  Forall (fun c => isspace c = true) ws -> LoadMacros_line st ws = st.
Proof.
  intros Hws. destruct ws as [|c ws]; [reflexivity|].
  unfold LoadMacros_line, first_token, get_word.
  rewrite <- (app_nil_r (c :: ws)), skipws_spaces by exact Hws.
  cbn [skipws span_word]. cbn.
  destruct (st_in_macro st); reflexivity.
Qed.

Lemma LoadMacros_line_indent st ws line :
  Forall (fun c => isspace c = true) ws ->
  LoadMacros_line st (ws ++ line) = LoadMacros_line st line.
Proof.
  intros Hws. destruct ws as [|d ws]; [reflexivity|].
  destruct line as [|c line].
  - rewrite app_nil_r. apply LoadMacros_line_blank. exact Hws.
  - unfold LoadMacros_line. cbn [app].
    change (d :: ws ++ c :: line) with ((d :: ws) ++ c :: line).
    unfold first_token, get_word. rewrite skipws_spaces by exact Hws.
    destruct (span_word (skipws (c :: line))) as [[|t0 t] r].
    + cbn. destruct (st_in_macro st); reflexivity.
    + reflexivity.
Qed.

(** X7 (indentation is ignored).  Whitespace in front of the lines of the
    macro file changes nothing: a file and the same file with any of its
    lines indented decode to the same store. *)
Theorem LoadMacros_indentation w1 w2 t1 t2 :
  content (macros_txt w1) = Some t1 ->
  content (macros_txt w2) = Some t2 ->
  Forall2 indented (getlines t1) (getlines t2) ->
  LoadMacros w1 = LoadMacros w2.
Proof.
  intros H1 H2 HI. unfold LoadMacros. rewrite H1, H2.
  unfold LoadMacros_lines. f_equal.
  generalize load_init.
  induction HI as [|l l' ls ls' (ws & Hws & ->) _ IH]; intros st;
    cbn [fold_left]; [reflexivity|].
  rewrite LoadMacros_line_indent by exact Hws. apply IH.
Qed.

(* ===================================================================== *)
(** ** Further properties: the console and the store *)
(* ===================================================================== *)

Lemma getline_line l rest :
  no_nl l -> getline (l ++ nl :: rest) = Some (l, rest).
Proof.
  intros H. unfold getline.
  destruct (l ++ nl :: rest) eqn:E; [destruct l; discriminate|].
  rewrite <- E, read_line_app by exact H. reflexivity.
Qed.

Lemma ReadIndex_in_int prompt w : in_int (fst (ReadIndex prompt w)).
Proof.
  unfold ReadIndex, bind. cbn [print].
  destruct (cin_getline _) as [[line|] w1]; [|apply in_int_small; cbn; lia].
  destruct (stoi line) as [v|e] eqn:E; cbn [ret fst].
  - eapply stoi_in_int; exact E.
  - apply in_int_small; lia.
Qed.

Lemma cin_getline_no_nl w line :
  fst (cin_getline w) = Some line -> no_nl line.
Proof.
  unfold cin_getline, getline. destruct (cin w) as [|c s]; [discriminate|].
  pose proof (fst_read_line_no_nl (c :: s)) as H.
  destruct (read_line (c :: s)) as [l r]. cbn [fst] in *.
  intros E; inversion E; subst. exact H.
Qed.

Lemma ReadLine_no_nl prompt w : no_nl (fst (ReadLine prompt w)).
Proof.
  unfold ReadLine, bind. cbn [print].
  pose proof (cin_getline_no_nl
                (mkWorld (config_txt w) (macros_txt w) (cin w)
                         (cout w ++ prompt) (cerr w) (calls w))) as H.
  destruct (cin_getline _) as [[line|] w1]; cbn [ret fst] in *.
  - apply H. reflexivity.
  - constructor.
Qed.

(** What a pass adds to the macro, if anything: one well-formed action
    that holds no -1. *)
Lemma CreateMacro_step_added macro w :
  let m' := snd (fst (CreateMacro_step macro w)) in
  name m' = name macro
  /\ exists added,
       actions m' = actions macro ++ added
       /\ Forall wf_action added /\ Forall not_minus_one added.
Proof.
  assert (Z0 : in_int 0) by (apply in_int_small; lia).
  assert (Z1 : in_int 1) by (apply in_int_small; lia).
  assert (Same : name macro = name macro
                 /\ exists added,
                      actions macro = actions macro ++ added
                      /\ Forall wf_action added /\ Forall not_minus_one added).
  { split; [reflexivity|]. exists []. rewrite app_nil_r.
    repeat split; constructor. }
  assert (Push : forall act, wf_action act -> not_minus_one act ->
                 name (push_action macro act) = name macro
                 /\ exists added,
                      actions (push_action macro act) = actions macro ++ added
                      /\ Forall wf_action added
                      /\ Forall not_minus_one added).
  { intros act Hw Hn. split; [reflexivity|]. exists [act].
    repeat split; [constructor; [exact Hw | constructor]
                  | constructor; [exact Hn | constructor]]. }
  unfold CreateMacro_step, bind. cbn [print].
  set (w1 := mkWorld _ _ _ _ _ _). clearbody w1.
  destruct (cin_getline w1) as [[step|] w2]; [|exact Same].
  destruct (streq step (lit "done")); [exact Same|].
  destruct (streq step (lit "move")).
  { pose proof (ReadIndex_in_int (lit "dx: ") w2) as Hx.
    destruct (ReadIndex _ w2) as [dx w3].
    pose proof (ReadIndex_in_int (lit "dy: ") w3) as Hy.
    destruct (ReadIndex _ w3) as [dy w4]. cbn [fst] in Hx, Hy.
    destruct (Z.eqb_spec dx (-1)); [exact Same|].
    destruct (Z.eqb_spec dy (-1)); [exact Same|].
    cbn [orb]. apply Push.
    - unfold wf_action. cbn [type a b].
      split; [exact Hx|]. split; [exact Hy | exact I].
    - unfold not_minus_one. cbn [type a b]. split; assumption. }
  destruct (streq step (lit "click")).
  { destruct (ReadLine _ w2) as [button w3].
    apply Push; [|exact I]. unfold wf_action. cbn [type a b].
    destruct (streq button (lit "right")).
    - split; [exact Z1|]. split; [exact Z0|].
      split; [right; reflexivity | reflexivity].
    - split; [exact Z0|]. split; [exact Z0|].
      split; [left; reflexivity | reflexivity]. }
  destruct (streq step (lit "key")).
  { pose proof (ReadIndex_in_int
                  (lit "Virtual-Key code (e.g. 0x41 for A): ") w2) as Hx.
    destruct (ReadIndex _ w2) as [vk w3]. cbn [fst] in Hx.
    destruct (Z.eqb_spec vk (-1)); [exact Same|].
    apply Push; [|unfold not_minus_one; cbn [type a]; assumption].
    unfold wf_action. cbn [type a b].
    split; [exact Hx|]. split; [exact Z0 | reflexivity]. }
  destruct (streq step (lit "delay")).
  { pose proof (ReadIndex_in_int (lit "Delay ms: ") w2) as Hx.
    destruct (ReadIndex _ w2) as [ms w3]. cbn [fst] in Hx.
    destruct (Z.eqb_spec ms (-1)); [exact Same|].
    apply Push; [|unfold not_minus_one; cbn [type a]; assumption].
    unfold wf_action. cbn [type a b].
    split; [exact Hx|]. split; [exact Z0 | reflexivity]. }
  exact Same.
Qed.

Lemma CreateMacro_loop_added fuel :
  forall macro w m' w',
  CreateMacro_loop fuel macro w = Some (m', w') ->
  name m' = name macro
  /\ exists added,
       actions m' = actions macro ++ added
       /\ Forall wf_action added /\ Forall not_minus_one added.
Proof.
  induction fuel as [|f IH]; intros macro w m' w';
    cbn [CreateMacro_loop]; [discriminate|].
  pose proof (CreateMacro_step_added macro w) as (Hn & ad & Ha & Hw & Hm).
  destruct (CreateMacro_step macro w) as [[fl m1] w1]. cbn [fst snd] in *.
  destruct fl.
  - intros H; inversion H; subst. split; [exact Hn|]. exists ad. auto.
  - intros H. apply IH in H. destruct H as (Hn' & ad' & Ha' & Hw' & Hm').
    split; [congruence|]. exists (ad ++ ad').
    rewrite Ha', Ha, app_assoc.
    repeat split; try apply Forall_app; auto.
Qed.

(** X8 (what creation does to the store).  [CreateMacro] ends on every
    input.  With an empty answer to the name prompt (or none) the store is
    returned as it is; otherwise exactly one macro is appended, under the
    name entered, and the macros already there keep their places. *)
Theorem CreateMacro_store_effect macros w :
  exists acts,
    fst (CreateMacro macros w)
    = match fst (ReadLine (lit "Macro name: ") w) with
      | [] => macros
      | nm => macros ++ [mkMacro nm acts]
      end.
Proof.
  unfold CreateMacro.
  destruct (ReadLine (lit "Macro name: ") w) as [nm w1]. cbn [fst].
  destruct nm as [|c nm]; [exists []; reflexivity|].
  destruct (CreateMacro_loop_enough (mkMacro (c :: nm) []) w1)
    as (m' & w' & E).
  rewrite E. apply CreateMacro_loop_added in E.
  destruct E as (Hn & ad & Ha & _). cbn [name actions app] in *.
  exists ad. cbn [bind print ret fst]. destruct m' as [n' a'].
  cbn [name actions] in *. subst. reflexivity.
Qed.

(** X9 (no -1 from the console).  [ReadIndex] answers -1 for a line it
    cannot read, and [CreateMacro] takes -1 for a failure: no macro it
    adds has a move by -1 in either direction, a key code of -1 or a delay
    of -1, even when the user types exactly that. *)
Theorem CreateMacro_never_minus_one macros w m :
  In m (fst (CreateMacro macros w)) ->
  In m macros \/ Forall not_minus_one (actions m).
Proof.
  unfold CreateMacro.
  destruct (ReadLine (lit "Macro name: ") w) as [nm w1].
  destruct nm as [|c nm]; [cbn; auto|].
  destruct (CreateMacro_loop _ _ w1) as [[m' w']|] eqn:E; [|cbn; auto].
  cbn [bind print ret fst]. intros H. apply in_app_or in H.
  destruct H as [H | [<- | []]]; [left; exact H|]. right.
  apply CreateMacro_loop_added in E.
  destruct E as (_ & ad & Ha & _ & Hm). cbn [actions app] in Ha.
  rewrite Ha. exact Hm.
Qed.

Lemma CreateMacro_saveable macros w :
  saveable macros -> saveable (fst (CreateMacro macros w)).
Proof.
  intros Hs. unfold CreateMacro.
  pose proof (ReadLine_no_nl (lit "Macro name: ") w) as Hnm.
  destruct (ReadLine (lit "Macro name: ") w) as [nm w1]. cbn [fst] in Hnm.
  destruct nm as [|c nm]; [exact Hs|].
  destruct (CreateMacro_loop _ _ w1) as [[m' w']|] eqn:E; [|exact Hs].
  cbn [bind print ret fst].
  apply CreateMacro_loop_added in E.
  destruct E as (Hn & ad & Ha & Hw & _). cbn [name actions app] in *.
  apply saveable_snoc; [exact Hs | rewrite Hn; exact Hnm |].
  rewrite Ha. exact Hw.
Qed.

(** X10 (deleting removes at most one).  Whatever is typed at the prompt
    of menu entry 4 and however large the store is, the store comes back
    either unchanged or without exactly one of its macros, the others in
    their order. *)
Theorem main_delete_removes_at_most_one macros w :
  fst (main_delete macros w) = macros
  \/ exists before m after,
       macros = before ++ m :: after
       /\ fst (main_delete macros w) = before ++ after.
Proof.
  unfold main_delete, bind.
  destruct (ListMacros macros w) as [u w0].
  destruct (ReadIndex _ w0) as [index w1].
  destruct ((index <? 1) || (index >? size_as_int macros)) eqn:E;
    [left; reflexivity|].
  right. apply orb_false_iff in E. destruct E as [E1 E2].
  apply Z.ltb_ge in E1. rewrite Z.gtb_ltb in E2. apply Z.ltb_ge in E2.
  pose proof (size_as_int_le macros).
  destruct (erase_spec (Z.to_nat (index - 1)) macros ltac:(lia))
    as (before & m & after & H1 & _ & H3).
  exists before, m, after. split; [exact H1|]. cbn [print ret fst].
  exact H3.
Qed.

Lemma main_delete_saveable macros w :
  saveable macros -> saveable (fst (main_delete macros w)).
Proof.
  intros Hs. unfold main_delete, bind.
  destruct (ListMacros macros w) as [u w0].
  destruct (ReadIndex _ w0) as [index w1].
  destruct ((index <? 1) || (index >? size_as_int macros));
    cbn [print ret fst]; [exact Hs|].
  unfold erase, saveable in *. apply Forall_app. split.
  - rewrite <- (firstn_skipn (Z.to_nat (index - 1)) macros) in Hs.
    apply Forall_app in Hs. apply Hs.
  - rewrite <- (firstn_skipn (S (Z.to_nat (index - 1))) macros) in Hs.
    apply Forall_app in Hs. apply Hs.
Qed.

(** X11 (running by number).  For a store that is not empty and whose
    size fits an [int], let [index] be the number read at the prompt of
    menu entry 2.  If it is a position of the store (counted from 1), the
    macro at that position is run, and no other; otherwise nothing is run
    and the notice [Invalid macro number.] is printed. *)
Theorem main_run_spec config macros w index w1 :
  macros <> [] ->
  Z.of_nat (List.length macros) <= INT_MAX ->
  ReadIndex (lit "Macro number: ") (snd (ListMacros macros w)) = (index, w1) ->
  (1 <= index <= Z.of_nat (List.length macros) ->
   exists m, nth_error macros (Z.to_nat (index - 1)) = Some m
             /\ main_run config macros w = RunMacro m config w1)
  /\ (~ 1 <= index <= Z.of_nat (List.length macros) ->
      main_run config macros w
      = print (lit "Invalid macro number." ++ [nl]) w1).
Proof.
  intros Hne Hsize Hread.
  assert (Hs : size_as_int macros = Z.of_nat (List.length macros)).
  { apply wrap_int_small. unfold in_int, INT_MIN, INT_MAX in *. lia. }
  unfold main_run. destruct macros as [|m0 ms]; [congruence|].
  set (macros := m0 :: ms) in *. unfold bind.
  destruct (ListMacros macros w) as [u w0]. cbn [snd] in Hread.
  rewrite Hread, Hs. split.
  - intros [H1 H2].
    destruct (Z.ltb_spec index 1); [lia|].
    destruct (Z.gtb_spec index (Z.of_nat (List.length macros))); [lia|].
    cbn [orb].
    destruct (nth_error macros (Z.to_nat (index - 1))) as [m|] eqn:E.
    + exists m. split; reflexivity.
    + apply nth_error_None in E. lia.
  - intros Hn.
    destruct (Z.ltb_spec index 1); [reflexivity|].
    destruct (Z.gtb_spec index (Z.of_nat (List.length macros)));
      [reflexivity | lia].
Qed.

(* ===================================================================== *)
(** ** Further properties: the execution engine *)
(* ===================================================================== *)









Lemma RunMacro_action_quiet config act w :
  let w' := snd (RunMacro_action config act w) in
  config_txt w' = config_txt w /\ macros_txt w' = macros_txt w
  /\ cin w' = cin w /\ cerr w' = cerr w /\ cout w' = cout w.
Proof.
  unfold RunMacro_action, SendMouseClick.
  destruct (type act); try destruct (a act =? 1); cbn; auto.
Qed.

(** X13 (a replay is deaf and leaves the disk alone).  Running a macro
    reads nothing from the console and changes neither file nor the error
    stream; on the output stream it adds its banner and [Done.] only. *)
Theorem RunMacro_quiet macro config w :
  let w' := snd (RunMacro macro config w) in
  config_txt w' = config_txt w /\ macros_txt w' = macros_txt w
  /\ cin w' = cin w /\ cerr w' = cerr w
  /\ cout w' = cout w ++ (lit "Running macro: " ++ name macro ++ [nl])
                      ++ lit "Done." ++ [nl].
Proof.
  unfold RunMacro, bind. cbn [print].
  set (w1 := mkWorld _ _ _ _ _ _).
  assert (H : forall acts w0,
             let w' := snd (for_each (RunMacro_action config) acts w0) in
             config_txt w' = config_txt w0 /\ macros_txt w' = macros_txt w0
             /\ cin w' = cin w0 /\ cerr w' = cerr w0 /\ cout w' = cout w0).
  { induction acts as [|act acts IH]; intros w0; [cbn; auto|].
    cbn [for_each]. unfold bind.
    pose proof (RunMacro_action_quiet config act w0) as Q.
    destruct (RunMacro_action config act w0) as [u w2]. cbn [snd] in Q.
    specialize (IH w2). cbn zeta in *.
    destruct Q as (Q1 & Q2 & Q3 & Q4 & Q5).
    destruct IH as (I1 & I2 & I3 & I4 & I5).
    repeat split; congruence. }
  specialize (H (actions macro) w1). cbn zeta in H.
  destruct (for_each (RunMacro_action config) (actions macro) w1) as [u w2].
  cbn [snd] in H. destruct H as (H1 & H2 & H3 & H4 & H5).
  cbn [print snd config_txt macros_txt cin cerr cout].
  rewrite H1, H2, H3, H4, H5.
  subst w1. cbn [config_txt macros_txt cin cerr cout].
  repeat split; try reflexivity.
  rewrite <- app_assoc. reflexivity.
Qed.

(** X14 (key codes are cut to 16 bits).  [SendKey] sends one press and one
    release of the same code, the key code reduced modulo 65536: codes
    that differ by a multiple of 65536 press the same key, and a negative
    code presses a key between 0 and 65535. *)
Theorem SendKey_low_16_bits vk k w :
  exists code,
    0 <= code < 65536 /\ (vk - code) mod 65536 = 0
    /\ calls (snd (SendKey (vk + k * 65536) w))
       = calls w ++ [SendInput [INPUT_KEYBOARD code KEY_DOWN;
                                INPUT_KEYBOARD code KEYEVENTF_KEYUP]].
Proof.
  exists (vk mod 65536). split; [apply Z.mod_pos_bound; lia|]. split.
  - rewrite Zminus_mod, Z.mod_mod, Z.sub_diag by lia. reflexivity.
  - unfold SendKey, to_WORD. change (2 ^ 16) with 65536.
    rewrite Z.mod_add by lia. reflexivity.
Qed.

(* ===================================================================== *)
(** ** Further properties: prompts and the menu *)
(* ===================================================================== *)

(** X15 (numbers may be followed by anything).  When the next line of the
    console starts with a written [int], [ReadIndex] returns that number
    and takes the whole line, whatever follows the digits on it. *)
Theorem ReadIndex_accepts_trailing_text prompt w v junk rest :
  in_int v ->
  no_digit_head junk ->
  no_nl junk ->
  cin w = put_int v ++ junk ++ nl :: rest ->
  ReadIndex prompt w = (v, set_cin rest (snd (print prompt w))).
Proof.
  intros Hv Hd Hn Hc. unfold ReadIndex, bind, cin_getline. cbn [print cin snd].
  rewrite Hc, app_assoc.
  rewrite getline_line by (apply no_nl_app; auto using put_int_no_nl).
  unfold stoi. rewrite scan_int_put_int by assumption. reflexivity.
Qed.


Lemma main_pass_saveable config macros w :
  saveable macros ->
  saveable (snd (snd (fst (main_pass config macros w)))).
Proof.
  intros Hs. unfold main_pass. unfold bind at 1.
  destruct (PrintMenu w) as [u w0]. unfold bind at 1.
  destruct (ReadIndex (lit "Select option: ") w0) as [choice w1].
  destruct (choice =? 0); [exact Hs|].
  destruct (choice =? 1).
  { unfold bind. destruct (ListMacros macros w1). exact Hs. }
  destruct (choice =? 2).
  { unfold bind. destruct (main_run config macros w1). exact Hs. }
  destruct (choice =? 3).
  { unfold bind. pose proof (CreateMacro_saveable macros w1 Hs) as H.
    destruct (CreateMacro macros w1). exact H. }
  destruct (choice =? 4).
  { unfold bind. pose proof (main_delete_saveable macros w1 Hs) as H.
    destruct (main_delete macros w1). exact H. }
  destruct (choice =? 5).
  { unfold bind. destruct (main_set_delay config w1). exact Hs. }
  destruct (choice =? 6).
  { unfold bind. destruct (SaveConfig config w1).
    destruct (SaveMacros macros w). destruct (SaveMacros macros _).
    exact Hs. }
  destruct (choice =? 7).
  { cbn [bind print ret fst snd]. apply LoadMacros_saveable. }
  unfold bind. exact Hs.
Qed.

Lemma main_loop_saveable fuel :
  forall config macros w c ms w',
  saveable macros ->
  main_loop fuel config macros w = Some (c, ms, w') ->
  saveable ms.
Proof.
  induction fuel as [|f IH]; intros config macros w c ms w' Hs;
    cbn [main_loop]; [discriminate|].
  pose proof (main_pass_saveable config macros w Hs) as H.
  destruct (main_pass config macros w) as [[fl [c1 ms1]] w1].
  cbn [fst snd] in H. destruct fl.
  - intros E; inversion E; subst. exact H.
  - apply IH. exact H.
Qed.

(** X17 (every store of a session can be saved).  However the menu is
    driven from a store that was loaded, when the menu loop ends the store
    it holds is one that saving to a writable file and loading again gives
    back unchanged. *)
Theorem session_store_round_trips fuel config w0 w c ms w' w'' :
  main_loop fuel config (LoadMacros w0) w = Some (c, ms, w') ->
  writable (macros_txt w'') = true ->
  LoadMacros (snd (SaveMacros ms w'')) = ms.
Proof.
  intros Hl Hw. apply saveable_round_trip; [|exact Hw].
  eapply main_loop_saveable; [|exact Hl]. apply LoadMacros_saveable.
Qed.

Lemma saveable_text_round_trip macros :
  saveable macros ->
  LoadMacros_lines (getlines (SaveMacros_text macros)) = macros.
Proof.
  intros Hs. rewrite SaveMacros_text_lines, getlines_unlines.
  - apply LoadMacros_lines_encoded. exact Hs.
  - apply Forall_flat_map.
    eapply Forall_impl; [|exact Hs]. intros m [Hn Ha].
    apply no_nl_macro_lines; assumption.
Qed.

(** After the banner, the first line of the console is thrown away. *)
Lemma main_startup_eof w :
  no_nl (cin w) ->
  cin (snd ((print (lit "Driver-free macro console ready (Win11)." ++ [nl]) ;;
             print (lit "Press Enter to open the menu." ++ [nl]) ;;
             cin_getline) w)) = [].
Proof.
  destruct w as [cf mf ci co ce cl]. cbn [cin]. intros H.
  unfold bind, cin_getline. cbn [print cin].
  destruct ci as [|c s]; [reflexivity|].
  unfold getline. rewrite read_line_no_nl by exact H. reflexivity.
Qed.

Ltac split_pairs :=
  repeat match goal with
         | |- context [let '(_, _) := ?e in _] => destruct e
         end.

(** A pass leaves the loop exactly when the choice read is 0. *)
Lemma main_pass_break config macros w :
  fst (fst (main_pass config macros w)) = Break
  <-> fst (ReadIndex (lit "Select option: ") (snd (PrintMenu w))) = 0.
Proof.
  unfold main_pass. unfold bind at 1.
  destruct (PrintMenu w) as [u w0]. cbn [snd]. unfold bind at 1.
  destruct (ReadIndex (lit "Select option: ") w0) as [choice w1]. cbn [fst].
  destruct (Z.eqb_spec choice 0) as [E | E]; [split; intros; trivial|].
  split; [|intros H; contradiction].
  intros H. exfalso. revert H.
  destruct (choice =? 1); [unfold bind; split_pairs; discriminate|].
  destruct (choice =? 2); [unfold bind; split_pairs; discriminate|].
  destruct (choice =? 3); [unfold bind; split_pairs; discriminate|].
  destruct (choice =? 4); [unfold bind; split_pairs; discriminate|].
  destruct (choice =? 5); [unfold bind; split_pairs; discriminate|].
  destruct (choice =? 6); [unfold bind; split_pairs; discriminate|].
  destruct (choice =? 7); [unfold bind; split_pairs; discriminate|].
  unfold bind; split_pairs; discriminate.
Qed.

(** At the end of the input a pass reports an unknown option and stays in
    the loop, with the input still at its end. *)
Lemma main_pass_eof_unknown config macros w :
  cin w = [] ->
  fst (main_pass config macros w) = (Continue, (config, macros))
  /\ cin (snd (main_pass config macros w)) = []
  /\ cout (snd (main_pass config macros w))
     = cout (snd ((PrintMenu ;; print (lit "Select option: ")) w))
       ++ lit "Unknown option." ++ [nl].
Proof.
  destruct w as [cf mf ci co ce cl]. cbn [cin]. intros ->.
  split; [|split]; vm_compute; reflexivity.
Qed.

(** X18 (no way out at the end of the input).  A pass of the menu loop
    leaves the loop exactly when the choice it reads is 0.  At the end of
    the input every pass reads -1, prints [Unknown option.] and stays in
    the loop with the configuration and the store as they are.  So when
    the console holds no complete line (at most some text without a line
    end, which the start-up prompt consumes), [main] does not end within
    any number of passes. *)
Theorem main_never_ends_at_eof fuel w :
  no_nl (cin w) ->
  main fuel w = None
  /\ (forall config macros w0,
        fst (fst (main_pass config macros w0)) = Break
        <-> fst (ReadIndex (lit "Select option: ") (snd (PrintMenu w0))) = 0)
  /\ (forall config macros w0,
        cin w0 = [] ->
        fst (main_pass config macros w0) = (Continue, (config, macros))
        /\ cin (snd (main_pass config macros w0)) = []
        /\ cout (snd (main_pass config macros w0))
           = cout (snd ((PrintMenu ;; print (lit "Select option: ")) w0))
             ++ lit "Unknown option." ++ [nl]).
Proof.
  intros H.
  split; [|split; [exact main_pass_break | exact main_pass_eof_unknown]].
  unfold main.
  pose proof (main_startup_eof w H) as E.
  destruct ((print _ ;; print _ ;; cin_getline) w) as [u w1].
  cbn [snd] in E. rewrite main_loop_eof by exact E. reflexivity.
Qed.

Lemma main_pass_quit config macros w rest :
  cin w = lit "0" ++ nl :: rest ->
  exists w',
    main_pass config macros w = ((Break, (config, macros)), w')
    /\ config_txt w' = config_txt w /\ macros_txt w' = macros_txt w.
Proof.
  destruct w as [cf mf ci co ce cl]. cbn [cin]. intros ->.
  exists (snd (main_pass config macros
                 (mkWorld cf mf (lit "0" ++ nl :: rest) co ce cl))).
  split; [|split]; vm_compute; reflexivity.
Qed.

Lemma main_shutdown_files c ms w :
  files_writable w ->
  let w' := snd ((SaveConfig c ;;
                  SaveMacros ms ;;
                  print (lit "Goodbye!" ++ [nl]) ;;
                  print (lit "Press Enter to exit." ++ [nl]) ;;
                  cin_getline) w) in
  content (config_txt w') = Some (SaveConfig_text c)
  /\ content (macros_txt w') = Some (SaveMacros_text ms).
Proof.
  destruct w as [[cc cw] [mc mw] ci co ce cl].
  unfold files_writable. cbn [config_txt macros_txt writable].
  intros [-> ->].
  unfold bind, SaveConfig, SaveMacros, write_config_txt, write_macros_txt,
    cin_getline.
  cbn [config_txt macros_txt writable cin cout cerr calls print].
  destruct (getline ci) as [[l r]|]; split; reflexivity.
Qed.

(** X19 (a session that only quits).  With two writable files, pressing
    Enter at the start and choosing 0 at the first menu ends [main].  It
    rewrites both files: the configuration file then holds the text
    [SaveConfig] writes for the configuration loaded at the start, the
    macro file the text [SaveMacros] writes for the store loaded at the
    start.  What the two files then load to is what was loaded at the
    start. *)
Theorem main_quit_keeps_store fuel w l0 rest :
  no_nl l0 ->
  cin w = l0 ++ nl :: lit "0" ++ nl :: rest ->
  files_writable w ->
  exists w',
    main (S fuel) w = Some w'
    /\ content (config_txt w') = Some (SaveConfig_text (LoadConfig w))
    /\ content (macros_txt w') = Some (SaveMacros_text (LoadMacros w))
    /\ LoadConfig w' = LoadConfig w
    /\ LoadMacros w' = LoadMacros w.
Proof.
  intros Hl0 Hc Hw. unfold main.
  assert (S1 : exists w1,
             (print (lit "Driver-free macro console ready (Win11)." ++ [nl]) ;;
              print (lit "Press Enter to open the menu." ++ [nl]) ;;
              cin_getline) w = (Some l0, w1)
             /\ cin w1 = lit "0" ++ nl :: rest
             /\ config_txt w1 = config_txt w /\ macros_txt w1 = macros_txt w).
  { destruct w as [cf mf ci co ce cl]. cbn [cin] in Hc. subst ci.
    unfold bind, cin_getline. cbn [print cin].
    rewrite getline_line by exact Hl0. eexists. repeat split. }
  destruct S1 as (w1 & -> & C1 & F1 & F2).
  cbn [main_loop].
  destruct (main_pass_quit (LoadConfig w) (LoadMacros w) w1 rest C1)
    as (w2 & -> & G1 & G2).
  assert (Hw2 : files_writable w2).
  { unfold files_writable in *. rewrite G1, G2, F1, F2. exact Hw. }
  pose proof (main_shutdown_files (LoadConfig w) (LoadMacros w) w2 Hw2)
    as [E1 E2].
  eexists. split; [reflexivity|]. cbn zeta in E1, E2.
  split; [exact E1|]. split; [exact E2|]. split.
  - unfold LoadConfig at 1. rewrite E1.
    apply LoadConfig_saved; [apply LoadConfig_in_int | reflexivity].
  - unfold LoadMacros at 1. rewrite E2.
    apply saveable_text_round_trip, LoadMacros_saveable.
Qed.

(** X20 (saving reports success whatever happened).  When neither file
    can be written, menu entry 6 leaves both files as they are and writes
    both failure notices to the error stream, and still prints [Saved.];
    the configuration and the store in memory are kept. *)
Theorem main_pass_save_unwritable config macros w rest :
  cin w = lit "6" ++ nl :: rest ->
  writable (config_txt w) = false ->
  writable (macros_txt w) = false ->
  exists w',
    main_pass config macros w = ((Continue, (config, macros)), w')
    /\ config_txt w' = config_txt w /\ macros_txt w' = macros_txt w
    /\ cerr w' = (cerr w ++ lit "Failed to write config file." ++ [nl])
                 ++ lit "Failed to write macros file." ++ [nl]
    /\ cout w'
       = cout (snd ((PrintMenu ;; print (lit "Select option: ")) w))
         ++ lit "Saved." ++ [nl].
Proof.
  destruct w as [[cc cw] [mc mw] ci co ce cl].
  cbn [cin config_txt macros_txt writable]. intros -> -> ->.
  exists (snd (main_pass config macros
                 (mkWorld (mkFile cc false) (mkFile mc false)
                          (lit "6" ++ nl :: rest) co ce cl))).
  split; [|split; [|split; [|split]]]; vm_compute; reflexivity.
Qed.

(* ===================================================================== *)
(** ** Worked instances of the further properties *)
(* ===================================================================== *)

Lemma SaveConfig_LoadConfig_witness :
  in_int (-7)
  /\ LoadConfig (snd (SaveConfig (mkConfig (-7)) blank_world)) = mkConfig (-7).
Proof.
  assert (H : in_int (-7)) by in_int_tac.
  split; [exact H|].
  apply (SaveConfig_LoadConfig (mkConfig (-7)) blank_world H). reflexivity.
Defined.

Lemma LoadConfig_last_assignment_witness :
  LoadConfig (with_config_txt two_assignments_file blank_world) = mkConfig 25.
Proof.
  apply (LoadConfig_last_assignment
           (with_config_txt two_assignments_file blank_world)
           two_assignments_file
           [lit "default_delay_ms=10"; lit "x=1"]
           (lit "default_delay_ms=25") [lit "other"]).
  - reflexivity.
  - reflexivity.
  - reflexivity.
  - repeat constructor.
Defined.

Lemma LoadConfig_no_assignment_witness :
  LoadConfig (with_config_txt no_assignment_file blank_world) = mkConfig 50.
Proof.
  apply (LoadConfig_no_assignment
           (with_config_txt no_assignment_file blank_world)
           no_assignment_file).
  - reflexivity.
  - repeat constructor.
Defined.

Lemma LoadMacros_SaveMacros_LoadMacros_witness :
  LoadMacros (with_macros_txt messy_file blank_world)
  = [mkMacro (lit " A b") [mkAction Move 1 2; mkAction Click 0 0];
     mkMacro [] [mkAction Delay 7 0]]
  /\ LoadMacros
       (snd (SaveMacros (LoadMacros (with_macros_txt messy_file blank_world))
                        blank_world))
     = LoadMacros (with_macros_txt messy_file blank_world).
Proof.
  split; [reflexivity|].
  apply (LoadMacros_SaveMacros_LoadMacros
           (with_macros_txt messy_file blank_world) blank_world).
  reflexivity.
Defined.

Lemma LoadMacros_names_witness :
  map name (LoadMacros (with_macros_txt messy_file blank_world))
  = [lit " A b"; []].
Proof.
  exact (proj1 (LoadMacros_names (with_macros_txt messy_file blank_world)
                  messy_file eq_refl)).
Defined.

Lemma LoadMacros_ignores_outside_blocks_witness :
  LoadMacros (with_macros_txt stray_lines_file blank_world)
  = LoadMacros (with_macros_txt no_stray_lines_file blank_world).
Proof.
  apply (LoadMacros_ignores_outside_blocks
           (with_macros_txt stray_lines_file blank_world)
           (with_macros_txt no_stray_lines_file blank_world)
           stray_lines_file no_stray_lines_file
           [lit "macro A"; lit "end"] [lit "key 1"; lit "end"]
           [lit "macro B"]).
  - reflexivity.
  - reflexivity.
  - reflexivity.
  - reflexivity.
  - right. exists [lit "macro A"], (lit "end"). split; reflexivity.
  - repeat constructor.
Defined.

Lemma LoadMacros_indentation_witness :
  LoadMacros (with_macros_txt plain_file blank_world)
  = LoadMacros (with_macros_txt indented_file blank_world).
Proof.
  apply (LoadMacros_indentation
           (with_macros_txt plain_file blank_world)
           (with_macros_txt indented_file blank_world)
           plain_file indented_file).
  - reflexivity.
  - reflexivity.
  - constructor; [exists (lit "  "); split; [repeat constructor|reflexivity]|].
    constructor;
      [exists (lit "    "); split; [repeat constructor|reflexivity]|].
    constructor; [exists []; split; [constructor | reflexivity]|].
    constructor.
Defined.

(** The user answers -1 to the first key prompt and 65 to the second. *)
Lemma CreateMacro_never_minus_one_witness :
  fst (CreateMacro [] (typed [lit "nm"; lit "key"; lit "-1"; lit "key";
                              lit "65"]))
  = [mkMacro (lit "nm") [mkAction Key 65 0]]
  /\ Forall not_minus_one [mkAction Key 65 0].
Proof.
  split; [reflexivity|].
  destruct (CreateMacro_never_minus_one []
              (typed [lit "nm"; lit "key"; lit "-1"; lit "key"; lit "65"])
              (mkMacro (lit "nm") [mkAction Key 65 0])
              (or_introl eq_refl)) as [[] | H].
  exact H.
Defined.

Lemma main_run_spec_witness :
  calls (snd (main_run (mkConfig 50) sample_store (typed [lit "1"])))
  = [SendInput [INPUT_KEYBOARD 72 KEY_DOWN; INPUT_KEYBOARD 72 KEYEVENTF_KEYUP];
     Sleep 50;
     SendInput [INPUT_KEYBOARD 73 KEY_DOWN; INPUT_KEYBOARD 73 KEYEVENTF_KEYUP];
     Sleep 50].
Proof.
  destruct (main_run_spec (mkConfig 50) sample_store (typed [lit "1"]) 1 _
              ltac:(discriminate) ltac:(unfold INT_MAX; cbn; lia) eq_refl)
    as [H _].
  destruct (H ltac:(cbn; lia)) as (m & Hm & E).
  rewrite E. cbn in Hm. injection Hm as <-. reflexivity.
Defined.

Lemma ReadIndex_accepts_trailing_text_witness :
  fst (ReadIndex (lit "n: ") (typed [lit "42 apples"])) = 42.
Proof.
  rewrite (ReadIndex_accepts_trailing_text (lit "n: ")
             (typed [lit "42 apples"]) 42 (lit " apples") []).
  - reflexivity.
  - in_int_tac.
  - reflexivity.
  - apply no_nl_lit_check. reflexivity.
  - reflexivity.
Defined.

(** Delete the first of two loaded macros, list, then quit. *)
Lemma session_store_round_trips_witness :
  exists c ms w',
    main_loop 3 (mkConfig 50)
      (LoadMacros (with_macros_txt reopened_file blank_world))
      (typed [lit "4"; lit "1"; lit "1"; lit "0"])
    = Some (c, ms, w')
    /\ ms = [mkMacro (lit "B") [mkAction Key 2 0]]
    /\ LoadMacros (snd (SaveMacros ms blank_world)) = ms.
Proof.
  destruct (main_loop 3 (mkConfig 50)
              (LoadMacros (with_macros_txt reopened_file blank_world))
              (typed [lit "4"; lit "1"; lit "1"; lit "0"]))
    as [[[c ms] w']|] eqn:E; [|vm_compute in E; discriminate E].
  exists c, ms, w'. split; [reflexivity|]. split.
  - vm_compute in E. injection E as _ E _. symmetry. exact E.
  - apply (session_store_round_trips 3 (mkConfig 50)
             (with_macros_txt reopened_file blank_world)
             (typed [lit "4"; lit "1"; lit "1"; lit "0"]) c ms w' blank_world
             E).
    reflexivity.
Defined.

Lemma main_never_ends_at_eof_witness : main 1000 blank_world = None.
Proof.
  exact (proj1 (main_never_ends_at_eof 1000 blank_world (Forall_nil _))).
Defined.

Lemma main_quit_keeps_store_witness :
  exists w',
    main 1 (with_macros_txt messy_file (typed [[]; lit "0"])) = Some w'
    /\ content (config_txt w') = Some (lit "default_delay_ms=50" ++ [nl])
    /\ content (macros_txt w')
       = Some (unlines [lit "macro  A b"; lit "move 1 2"; lit "click left";
                        lit "end"; lit "macro "; lit "delay 7"; lit "end"])
    /\ LoadConfig w'
       = LoadConfig (with_macros_txt messy_file (typed [[]; lit "0"]))
    /\ LoadMacros w'
       = LoadMacros (with_macros_txt messy_file (typed [[]; lit "0"])).
Proof.
  exact (main_quit_keeps_store 0
           (with_macros_txt messy_file (typed [[]; lit "0"])) [] []
           (Forall_nil _) eq_refl (conj eq_refl eq_refl)).
Defined.


Lemma main_pass_save_unwritable_witness :
  exists w',
    fst (main_pass (mkConfig 50) abc_store read_only_world)
    = (Continue, (mkConfig 50, abc_store))
    /\ snd (main_pass (mkConfig 50) abc_store read_only_world) = w'
    /\ config_txt w' = mkFile None false
    /\ macros_txt w' = mkFile None false.
Proof.
  destruct (main_pass_save_unwritable (mkConfig 50) abc_store read_only_world
              [] eq_refl eq_refl eq_refl) as (w' & E & F1 & F2 & _).
  exists w'. rewrite E. repeat split; assumption.
Defined.
